(** * The alarms library of OpenPilot (flight/Libraries/alarms.c)

    A shallow embedding of the alarm registry and of its severity queries,
    and the properties of its specification.

    The library keeps no table of its own: every operation copies the
    SystemAlarms record out of the object store ([SystemAlarmsGet]), works
    on the copy, and the mutators copy it back ([SystemAlarmsSet]) when
    they changed it.  The calls to the store and to the recursive mutex
    are the effects of the code; they are kept here in a state that holds
    the store, the mutex and the log of the calls made so far. *)

From stdpp Require Import base numbers list.

Local Open Scope Z_scope.

(** ** The SystemAlarms record *)

(** Modelled from the spec: the generated header systemalarms.h, which
    declares the enumeration [SystemAlarmsAlarmOptions], is not part of the
    sources at hand.  The enumerators and their order are those of the
    specification, Uninitialized < Ok < Warning < Error < Critical. *)
Inductive SystemAlarmsAlarmOptions : Type :=
  | SYSTEMALARMS_ALARM_UNINITIALISED
  | SYSTEMALARMS_ALARM_OK
  | SYSTEMALARMS_ALARM_WARNING
  | SYSTEMALARMS_ALARM_ERROR
  | SYSTEMALARMS_ALARM_CRITICAL.

#[global] Instance SystemAlarmsAlarmOptions_eq_dec :
  EqDecision SystemAlarmsAlarmOptions.
Proof. solve_decision. Defined.

(** Modelled from the spec: the integer of each enumerator, which the
    missing header fixes.  A generated C enumeration counts from 0 in the
    order of its options; the C comparisons [!=] and [>=] of alarms.c act
    on these integers. *)
Definition enum_val (s : SystemAlarmsAlarmOptions) : Z :=
  match s with
  | SYSTEMALARMS_ALARM_UNINITIALISED => 0
  | SYSTEMALARMS_ALARM_OK => 1
  | SYSTEMALARMS_ALARM_WARNING => 2
  | SYSTEMALARMS_ALARM_ERROR => 3
  | SYSTEMALARMS_ALARM_CRITICAL => 4
  end.

(** The conversion of an integer to [uint8_t]. *)
Definition uint8 (z : Z) : Z := z mod 256.

(** [SystemAlarmsData]: the three arrays that alarms.c indexes,
    [alarms.Alarm], [alarms.ExtendedAlarmStatus] and
    [alarms.ExtendedAlarmSubStatus]. *)
Record SystemAlarmsData : Type := mkSystemAlarmsData {
  Alarm : list SystemAlarmsAlarmOptions;
  ExtendedAlarmStatus : list Z;
  ExtendedAlarmSubStatus : list Z
}.

#[global] Instance SystemAlarmsData_eq_dec : EqDecision SystemAlarmsData.
Proof. solve_decision. Defined.

(** [alarms.Alarm[n]] as an rvalue.  Reading past the end of the array is
    undefined in C; the range checks of the callers keep [n] inside a
    record of the declared size, and the value chosen here for the other
    reads plays no role in any result below that assumes such a record. *)
Definition Alarm_at (alarms : SystemAlarmsData) (n : nat) : SystemAlarmsAlarmOptions :=
  default SYSTEMALARMS_ALARM_UNINITIALISED (Alarm alarms !! n).

(** The assignments [alarms.Alarm[n] = v], [alarms.ExtendedAlarmStatus[n] = v]
    and [alarms.ExtendedAlarmSubStatus[n] = v] on the local copy. *)
Definition set_Alarm (alarms : SystemAlarmsData) (n : nat)
    (v : SystemAlarmsAlarmOptions) : SystemAlarmsData :=
  mkSystemAlarmsData (<[n := v]> (Alarm alarms))
    (ExtendedAlarmStatus alarms) (ExtendedAlarmSubStatus alarms).

Definition set_ExtendedAlarmStatus (alarms : SystemAlarmsData) (n : nat)
    (v : Z) : SystemAlarmsData :=
  mkSystemAlarmsData (Alarm alarms)
    (<[n := uint8 v]> (ExtendedAlarmStatus alarms)) (ExtendedAlarmSubStatus alarms).

Definition set_ExtendedAlarmSubStatus (alarms : SystemAlarmsData) (n : nat)
    (v : Z) : SystemAlarmsData :=
  mkSystemAlarmsData (Alarm alarms)
    (ExtendedAlarmStatus alarms) (<[n := uint8 v]> (ExtendedAlarmSubStatus alarms)).

(** ** The store, the mutex and the calls made to them *)

(** The recursive mutex [lock], seen from the calling task: free, held by
    the caller ([LockMine k]: taken [k + 1] times and not yet given back),
    or held by another task. *)
Inductive LockState : Type :=
  | LockFree
  | LockMine (k : nat)
  | LockOther.

#[global] Instance LockState_eq_dec : EqDecision LockState.
Proof. solve_decision. Defined.

(** One entry of the log per call that leaves alarms.c. *)
Inductive Event : Type :=
  | EvTake (ok : bool)            (* xSemaphoreTakeRecursive and its result *)
  | EvGive                        (* xSemaphoreGiveRecursive *)
  | EvGet                         (* SystemAlarmsGet: the record is read *)
  | EvSet (d : SystemAlarmsData). (* SystemAlarmsSet: the record is written *)

#[global] Instance Event_eq_dec : EqDecision Event.
Proof. solve_decision. Defined.

Record World : Type := mkWorld {
  store : SystemAlarmsData;   (* the SystemAlarms object *)
  lock : LockState;           (* static xSemaphoreHandle lock *)
  trace : list Event          (* the calls so far, oldest first *)
}.

#[global] Instance World_eq_dec : EqDecision World.
Proof. solve_decision. Defined.

(** The comparison [>=] of two indices. *)
#[global] Instance nat_ge_dec : RelDecision ge := λ x y, decide (y ≤ x)%nat.

(** A C function with a result of type [A]. *)
Definition Task (A : Type) : Type := World → A * World.

#[global] Instance Task_ret : MRet Task := λ A a w, (a, w).
#[global] Instance Task_bind : MBind Task :=
  λ A B k m w, let p := m w in k p.1 p.2.

Definition log (e : Event) (w : World) : World :=
  mkWorld (store w) (lock w) (trace w ++ [e]).

(** [xSemaphoreTakeRecursive(lock, portMAX_DELAY)]: pdTRUE once the caller
    owns the mutex, pdFALSE when the wait ends while another task still
    holds it. *)
Definition xSemaphoreTakeRecursive : Task bool := λ w,
  match lock w with
  | LockFree => (true, log (EvTake true) (mkWorld (store w) (LockMine 0) (trace w)))
  | LockMine k => (true, log (EvTake true) (mkWorld (store w) (LockMine (S k)) (trace w)))
  | LockOther => (false, log (EvTake false) w)
  end.

(** [xSemaphoreGiveRecursive(lock)]: undoes one take of the caller; it has
    no effect on a mutex that the caller does not hold. *)
Definition xSemaphoreGiveRecursive : Task unit := λ w,
  match lock w with
  | LockMine 0 => (tt, log EvGive (mkWorld (store w) LockFree (trace w)))
  | LockMine (S k) => (tt, log EvGive (mkWorld (store w) (LockMine k) (trace w)))
  | _ => (tt, log EvGive w)
  end.

(** [SystemAlarmsGet(&alarms)]: a copy of the whole record. *)
Definition SystemAlarmsGet : Task SystemAlarmsData := λ w,
  (store w, log EvGet w).

(** [SystemAlarmsSet(&alarms)]: the whole record is replaced. *)
Definition SystemAlarmsSet (alarms : SystemAlarmsData) : Task unit := λ w,
  (tt, log (EvSet alarms) (mkWorld alarms (lock w) (trace w))).

(** ** Sample states

    A table of three alarms, the first two of them extended, with every
    alarm at OK; the same with the first alarm at (ERROR, 1, 2); and the
    states in which the mutex is free or held by another task. *)

Definition sample_table : SystemAlarmsData :=
  mkSystemAlarmsData
    [SYSTEMALARMS_ALARM_OK; SYSTEMALARMS_ALARM_OK; SYSTEMALARMS_ALARM_OK]
    [0; 0] [0; 0].

Definition sample_error_table : SystemAlarmsData :=
  mkSystemAlarmsData
    [SYSTEMALARMS_ALARM_ERROR; SYSTEMALARMS_ALARM_OK; SYSTEMALARMS_ALARM_OK]
    [1; 0] [2; 0].

Definition sample_world : World := mkWorld sample_table LockFree [].
Definition sample_error_world : World := mkWorld sample_error_table LockFree [].
Definition sample_busy_world : World := mkWorld sample_table LockOther [].

(** ** The functions of alarms.c *)

Section alarms.

(** The sizes of the arrays and the default severity are constants of the
    missing header systemalarms.h; they are left open. *)
Variable SYSTEMALARMS_ALARM_NUMELEM : nat.
Variable SYSTEMALARMS_EXTENDEDALARMSTATUS_NUMELEM : nat.
Variable SYSTEMALARMS_ALARM_DEFAULT : SystemAlarmsAlarmOptions.

(** A record of the declared size. *)
Definition wf_data (d : SystemAlarmsData) : Prop :=
  length (Alarm d) = SYSTEMALARMS_ALARM_NUMELEM ∧
  length (ExtendedAlarmStatus d) = SYSTEMALARMS_EXTENDEDALARMSTATUS_NUMELEM ∧
  length (ExtendedAlarmSubStatus d) = SYSTEMALARMS_EXTENDEDALARMSTATUS_NUMELEM.

#[global] Instance wf_data_dec d : Decision (wf_data d).
Proof. unfold wf_data. apply _. Defined.

(** [AlarmsSet]: 0 if success, -1 if an error. *)
Definition AlarmsSet (alarm : nat) (severity : SystemAlarmsAlarmOptions) : Task Z :=
  (* Check that this is a valid alarm *)
  if bool_decide (alarm ≥ SYSTEMALARMS_ALARM_NUMELEM)%nat then mret (-1)
  else
    (* Lock *)
    taken ← xSemaphoreTakeRecursive;
    if negb taken then mret (-1)
    else
      (* Read alarm and update its severity only if it was changed *)
      alarms ← SystemAlarmsGet;
      (if bool_decide (enum_val (Alarm_at alarms alarm) ≠ enum_val severity)
       then SystemAlarmsSet (set_Alarm alarms alarm severity)
       else mret tt);;
      (* Release lock *)
      xSemaphoreGiveRecursive;;
      mret 0.

(** [ExtendedAlarmsSet]: 0 if success, -1 if an error. *)
Definition ExtendedAlarmsSet (alarm : nat) (severity : SystemAlarmsAlarmOptions)
    (status subStatus : Z) : Task Z :=
  (* Check that this is a valid alarm *)
  if bool_decide (alarm ≥ SYSTEMALARMS_EXTENDEDALARMSTATUS_NUMELEM)%nat then mret (-1)
  else
    (* Lock *)
    taken ← xSemaphoreTakeRecursive;
    if negb taken then mret (-1)
    else
      (* Read alarm and update its severity only if it was changed *)
      alarms ← SystemAlarmsGet;
      (if bool_decide (enum_val (Alarm_at alarms alarm) ≠ enum_val severity)
       then
         let alarms := set_ExtendedAlarmStatus alarms alarm status in
         let alarms := set_ExtendedAlarmSubStatus alarms alarm subStatus in
         let alarms := set_Alarm alarms alarm severity in
         SystemAlarmsSet alarms
       else mret tt);;
      (* Release lock *)
      xSemaphoreGiveRecursive;;
      mret 0.

(** [AlarmsGet]: the severity of the alarm, as the integer that C returns. *)
Definition AlarmsGet (alarm : nat) : Task Z :=
  (* Check that this is a valid alarm *)
  if bool_decide (alarm ≥ SYSTEMALARMS_ALARM_NUMELEM)%nat then mret 0
  else
    (* Read alarm *)
    alarms ← SystemAlarmsGet;
    mret (enum_val (Alarm_at alarms alarm)).

Definition AlarmsDefault (alarm : nat) : Task Z :=
  AlarmsSet alarm SYSTEMALARMS_ALARM_DEFAULT.

(** [for (n = first; n < first + count; ++n) body(n);] with the results
    of the body dropped. *)
Fixpoint for_each_alarm (body : nat → Task Z) (first count : nat) : Task unit :=
  match count with
  | O => mret tt
  | S count' => body first;; for_each_alarm body (S first) count'
  end.

Definition AlarmsDefaultAll : Task unit :=
  for_each_alarm AlarmsDefault 0 SYSTEMALARMS_ALARM_NUMELEM.

Definition AlarmsClear (alarm : nat) : Task Z :=
  if bool_decide (alarm < SYSTEMALARMS_EXTENDEDALARMSTATUS_NUMELEM)%nat
  then ExtendedAlarmsSet alarm SYSTEMALARMS_ALARM_OK 0 0
  else AlarmsSet alarm SYSTEMALARMS_ALARM_OK.

Definition AlarmsClearAll : Task unit :=
  for_each_alarm AlarmsClear 0 SYSTEMALARMS_ALARM_NUMELEM.

(** The loop of [hasSeverity] from index [n] on, [count] indices left:
    true when it leaves through [return 1]. *)
Fixpoint hasSeverity_scan (alarms : SystemAlarmsData)
    (severity : SystemAlarmsAlarmOptions) (n count : nat) : bool :=
  match count with
  | O => false
  | S count' =>
      if bool_decide (enum_val (Alarm_at alarms n) >= enum_val severity) then true
      else hasSeverity_scan alarms severity (S n) count'
  end.

(** [hasSeverity]: 0 if no alarms are found, 1 if at least one alarm is
    found.  The result of the take is dropped, as in the source. *)
Definition hasSeverity (severity : SystemAlarmsAlarmOptions) : Task Z :=
  (* Lock *)
  xSemaphoreTakeRecursive;;
  (* Read alarms *)
  alarms ← SystemAlarmsGet;
  (* Go through alarms and check if any are of the given severity or higher *)
  if hasSeverity_scan alarms severity 0 SYSTEMALARMS_ALARM_NUMELEM
  then xSemaphoreGiveRecursive;; mret 1
  else
    (* If this point is reached then no alarms found *)
    xSemaphoreGiveRecursive;; mret 0.

Definition AlarmsHasWarnings : Task Z := hasSeverity SYSTEMALARMS_ALARM_WARNING.
Definition AlarmsHasErrors : Task Z := hasSeverity SYSTEMALARMS_ALARM_ERROR.
Definition AlarmsHasCritical : Task Z := hasSeverity SYSTEMALARMS_ALARM_CRITICAL.

(** The public operations on the table, as one type, and their effect.
    (AlarmsInitialize creates the mutex and hands the table to the
    initialiser of the store; it is not an operation on the table.) *)
Inductive AlarmsCall : Type :=
  | CallSet (alarm : nat) (severity : SystemAlarmsAlarmOptions)
  | CallExtendedSet (alarm : nat) (severity : SystemAlarmsAlarmOptions) (status subStatus : Z)
  | CallGet (alarm : nat)
  | CallDefault (alarm : nat)
  | CallDefaultAll
  | CallClear (alarm : nat)
  | CallClearAll
  | CallHasWarnings
  | CallHasErrors
  | CallHasCritical.

Definition run_call (c : AlarmsCall) (w : World) : World :=
  match c with
  | CallSet alarm severity => (AlarmsSet alarm severity w).2
  | CallExtendedSet alarm severity status subStatus =>
      (ExtendedAlarmsSet alarm severity status subStatus w).2
  | CallGet alarm => (AlarmsGet alarm w).2
  | CallDefault alarm => (AlarmsDefault alarm w).2
  | CallDefaultAll => (AlarmsDefaultAll w).2
  | CallClear alarm => (AlarmsClear alarm w).2
  | CallClearAll => (AlarmsClearAll w).2
  | CallHasWarnings => (AlarmsHasWarnings w).2
  | CallHasErrors => (AlarmsHasErrors w).2
  | CallHasCritical => (AlarmsHasCritical w).2
  end.

(** ** Vocabulary of the properties *)

(** The calls that [m] adds to the log of [w]. *)
Definition emitted {A} (m : Task A) (w : World) : list Event :=
  drop (length (trace w)) (trace (m w).2).

Definition is_write (e : Event) : bool :=
  match e with EvSet _ => true | _ => false end.

(** The number of write-backs in a log. *)
Definition writes (tr : list Event) : nat := length (filter is_write tr).

(** Every read of a log is made between a successful take of the mutex and
    the matching give: [held] counts the takes not yet given back. *)
Fixpoint reads_locked (held : nat) (tr : list Event) : bool :=
  match tr with
  | [] => true
  | EvTake true :: tr' => reads_locked (S held) tr'
  | EvTake false :: tr' => reads_locked held tr'
  | EvGive :: tr' => reads_locked (pred held) tr'
  | EvGet :: tr' => match held with O => false | S _ => reads_locked held tr' end
  | EvSet _ :: tr' => reads_locked held tr'
  end.

(** The three assignments of [ExtendedAlarmsSet] on its copy of the record. *)
Definition extended_update (d : SystemAlarmsData) (alarm : nat)
    (severity : SystemAlarmsAlarmOptions) (status subStatus : Z) : SystemAlarmsData :=
  set_Alarm
    (set_ExtendedAlarmSubStatus (set_ExtendedAlarmStatus d alarm status) alarm subStatus)
    alarm severity.

(** The order of the severities: that of their integers. *)
Definition severity_le (a b : SystemAlarmsAlarmOptions) : Prop :=
  enum_val a ≤ enum_val b.

#[global] Instance severity_le_dec : RelDecision severity_le.
Proof. intros a b. unfold severity_le. apply _. Defined.

(** A table in which every alarm has the severity [s]. *)
Definition all_alarms (s : SystemAlarmsAlarmOptions) (d : SystemAlarmsData) : Prop :=
  Forall (λ s', s' = s) (Alarm d).

#[global] Instance all_alarms_dec s d : Decision (all_alarms s d).
Proof. unfold all_alarms. apply _. Defined.

(** The extended fields of the simple alarms (the indices at or above the
    number of extended alarms) are in [w'] what they are in [w]. *)
Definition simple_untouched (w w' : World) : Prop :=
  ∀ n, (n ≥ SYSTEMALARMS_EXTENDEDALARMSTATUS_NUMELEM)%nat →
    ExtendedAlarmStatus (store w') !! n = ExtendedAlarmStatus (store w) !! n ∧
    ExtendedAlarmSubStatus (store w') !! n = ExtendedAlarmSubStatus (store w) !! n.

(** The result of [xSemaphoreTakeRecursive] on a mutex in the state [l]. *)
Definition take_result (l : LockState) : bool :=
  match l with LockOther => false | _ => true end.

(** The four ways through a mutator: the identifier is refused, the mutex
    is not obtained, the severity is the stored one, or the record [d'] is
    written back. *)
Inductive set_outcome (d' : SystemAlarmsData) (w : World) : Z * World → Prop :=
  | set_invalid : set_outcome d' w (-1, w)
  | set_lock_failure :
      lock w = LockOther → set_outcome d' w (-1, log (EvTake false) w)
  | set_same :
      lock w ≠ LockOther →
      set_outcome d' w
        (0, mkWorld (store w) (lock w) (trace w ++ [EvTake true; EvGet; EvGive]))
  | set_change :
      lock w ≠ LockOther →
      set_outcome d' w
        (0, mkWorld d' (lock w) (trace w ++ [EvTake true; EvGet; EvSet d'; EvGive])).

(** The calls that lead from the log of [w] to the log of [w']. *)
Definition new_events (w w' : World) : list Event :=
  drop (length (trace w)) (trace w').

(** The run of a log from [held] successful takes of the mutex not yet
    given back: the number of takes not given back at its end, and nothing
    when the log has a give that no earlier successful take matches, or a
    write-back made while no take is outstanding. *)
Fixpoint bracketed_run (held : nat) (tr : list Event) : option nat :=
  match tr with
  | [] => Some held
  | EvTake true :: tr' => bracketed_run (S held) tr'
  | EvTake false :: tr' => bracketed_run held tr'
  | EvGive :: tr' => match held with O => None | S held' => bracketed_run held' tr' end
  | EvGet :: tr' => bracketed_run held tr'
  | EvSet _ :: tr' => match held with O => None | S _ => bracketed_run held tr' end
  end.

(** The log grows from [w] to [w'] by calls in which every give matches an
    earlier successful take, every write-back is made while a take is
    outstanding, and no take is outstanding at the end. *)
Definition well_bracketed (w w' : World) : Prop :=
  ∃ l, trace w' = trace w ++ l ∧ bracketed_run 0 l = Some 0%nat.

(** The calls that end in [hasSeverity]. *)
Definition is_query (c : AlarmsCall) : bool :=
  match c with
  | CallHasWarnings | CallHasErrors | CallHasCritical => true
  | _ => false
  end.

(** What every call of the library keeps, from the state [w] before it to
    the state [w'] after it: the mutex is in the state it was in, the
    record keeps its size, the log only grows, and nothing is written when
    another task holds the mutex. *)
Definition call_kept (w w' : World) : Prop :=
  lock w' = lock w ∧
  (wf_data (store w) → wf_data (store w')) ∧
  ∃ l, trace w' = trace w ++ l ∧
       (lock w = LockOther → store w' = store w ∧ writes l = 0%nat).

(** ** Basic facts *)

Lemma enum_val_inj a b : enum_val a = enum_val b → a = b.
Proof. destruct a, b; simpl; congruence. Qed.

Lemma Alarm_at_lookup d n s : Alarm d !! n = Some s → Alarm_at d n = s.
Proof. unfold Alarm_at. intros ->. reflexivity. Qed.

Lemma emitted_app {A} (m : Task A) w l :
  trace (m w).2 = trace w ++ l → emitted m w = l.
Proof. unfold emitted. intros ->. apply drop_app_length. Qed.

Lemma nat_ge_true (a b : nat) : (a ≥ b)%nat → bool_decide (a ≥ b)%nat = true.
Proof. intros H. apply bool_decide_eq_true_2, H. Qed.

Lemma nat_ge_false (a b : nat) : (a < b)%nat → bool_decide (a ≥ b)%nat = false.
Proof. intros H. apply bool_decide_eq_false_2. unfold ge. lia. Qed.

(** *** The four ways through [AlarmsSet] *)

Lemma AlarmsSet_invalid alarm severity w :
  (alarm ≥ SYSTEMALARMS_ALARM_NUMELEM)%nat →
  AlarmsSet alarm severity w = (-1, w).
Proof. intros H. unfold AlarmsSet. rewrite nat_ge_true by done. reflexivity. Qed.

Lemma AlarmsSet_lock_failure alarm severity w :
  (alarm < SYSTEMALARMS_ALARM_NUMELEM)%nat → lock w = LockOther →
  AlarmsSet alarm severity w = (-1, log (EvTake false) w).
Proof.
  intros H Hl. unfold AlarmsSet. rewrite nat_ge_false by done.
  unfold mbind, Task_bind, xSemaphoreTakeRecursive. rewrite Hl. reflexivity.
Qed.

Lemma AlarmsSet_same alarm severity w :
  (alarm < SYSTEMALARMS_ALARM_NUMELEM)%nat → lock w ≠ LockOther →
  Alarm_at (store w) alarm = severity →
  AlarmsSet alarm severity w =
    (0, mkWorld (store w) (lock w) (trace w ++ [EvTake true; EvGet; EvGive])).
Proof.
  intros H Hl Hs. unfold AlarmsSet. rewrite nat_ge_false by done.
  destruct w as [d l tr]; simpl in *.
  unfold mbind, Task_bind, xSemaphoreTakeRecursive, SystemAlarmsGet; simpl.
  destruct l as [|k|]; [| |done]; simpl;
    (rewrite bool_decide_eq_false_2 by (rewrite Hs; auto)); simpl;
    unfold log; simpl; rewrite <- !app_assoc; reflexivity.
Qed.

Lemma AlarmsSet_change alarm severity w :
  (alarm < SYSTEMALARMS_ALARM_NUMELEM)%nat → lock w ≠ LockOther →
  Alarm_at (store w) alarm ≠ severity →
  AlarmsSet alarm severity w =
    (0, mkWorld (set_Alarm (store w) alarm severity) (lock w)
          (trace w ++ [EvTake true; EvGet;
                       EvSet (set_Alarm (store w) alarm severity); EvGive])).
Proof.
  intros H Hl Hs. unfold AlarmsSet. rewrite nat_ge_false by done.
  destruct w as [d l tr]; simpl in *.
  unfold mbind, Task_bind, xSemaphoreTakeRecursive, SystemAlarmsGet; simpl.
  destruct l as [|k|]; [| |done]; simpl;
    (rewrite bool_decide_eq_true_2 by (intros E; apply Hs, enum_val_inj, E)); simpl;
    unfold log; simpl; rewrite <- !app_assoc; reflexivity.
Qed.

(** *** The four ways through [ExtendedAlarmsSet] *)

Lemma ExtendedAlarmsSet_invalid alarm severity status subStatus w :
  (alarm ≥ SYSTEMALARMS_EXTENDEDALARMSTATUS_NUMELEM)%nat →
  ExtendedAlarmsSet alarm severity status subStatus w = (-1, w).
Proof. intros H. unfold ExtendedAlarmsSet. rewrite nat_ge_true by done. reflexivity. Qed.

Lemma ExtendedAlarmsSet_lock_failure alarm severity status subStatus w :
  (alarm < SYSTEMALARMS_EXTENDEDALARMSTATUS_NUMELEM)%nat → lock w = LockOther →
  ExtendedAlarmsSet alarm severity status subStatus w = (-1, log (EvTake false) w).
Proof.
  intros H Hl. unfold ExtendedAlarmsSet. rewrite nat_ge_false by done.
  unfold mbind, Task_bind, xSemaphoreTakeRecursive. rewrite Hl. reflexivity.
Qed.

Lemma ExtendedAlarmsSet_same alarm severity status subStatus w :
  (alarm < SYSTEMALARMS_EXTENDEDALARMSTATUS_NUMELEM)%nat → lock w ≠ LockOther →
  Alarm_at (store w) alarm = severity →
  ExtendedAlarmsSet alarm severity status subStatus w =
    (0, mkWorld (store w) (lock w) (trace w ++ [EvTake true; EvGet; EvGive])).
Proof.
  intros H Hl Hs. unfold ExtendedAlarmsSet. rewrite nat_ge_false by done.
  destruct w as [d l tr]; simpl in *.
  unfold mbind, Task_bind, xSemaphoreTakeRecursive, SystemAlarmsGet; simpl.
  destruct l as [|k|]; [| |done]; simpl;
    (rewrite bool_decide_eq_false_2 by (rewrite Hs; auto)); simpl;
    unfold log; simpl; rewrite <- !app_assoc; reflexivity.
Qed.

Lemma ExtendedAlarmsSet_change alarm severity status subStatus w :
  (alarm < SYSTEMALARMS_EXTENDEDALARMSTATUS_NUMELEM)%nat → lock w ≠ LockOther →
  Alarm_at (store w) alarm ≠ severity →
  ExtendedAlarmsSet alarm severity status subStatus w =
    (0, mkWorld (extended_update (store w) alarm severity status subStatus) (lock w)
          (trace w ++ [EvTake true; EvGet;
                       EvSet (extended_update (store w) alarm severity status subStatus);
                       EvGive])).
Proof.
  intros H Hl Hs. unfold ExtendedAlarmsSet. rewrite nat_ge_false by done.
  destruct w as [d l tr]; simpl in *.
  unfold mbind, Task_bind, xSemaphoreTakeRecursive, SystemAlarmsGet; simpl.
  destruct l as [|k|]; [| |done]; simpl;
    (rewrite bool_decide_eq_true_2 by (intros E; apply Hs, enum_val_inj, E)); simpl;
    unfold log; simpl; rewrite <- !app_assoc; reflexivity.
Qed.

(** Each call of a mutator takes one of its four ways. *)
Lemma AlarmsSet_outcome alarm severity w :
  set_outcome (set_Alarm (store w) alarm severity) w (AlarmsSet alarm severity w).
Proof.
  destruct (decide (alarm ≥ SYSTEMALARMS_ALARM_NUMELEM)%nat) as [Hge|Hlt].
  { rewrite AlarmsSet_invalid by done. constructor. }
  assert (alarm < SYSTEMALARMS_ALARM_NUMELEM)%nat by (unfold ge in Hlt; lia).
  destruct (decide (lock w = LockOther)) as [Hl|Hl].
  { rewrite AlarmsSet_lock_failure by done. by constructor. }
  destruct (decide (Alarm_at (store w) alarm = severity)) as [Hs|Hs].
  - rewrite AlarmsSet_same by done. by constructor.
  - rewrite AlarmsSet_change by done. by constructor.
Qed.

Lemma ExtendedAlarmsSet_outcome alarm severity status subStatus w :
  set_outcome (extended_update (store w) alarm severity status subStatus) w
    (ExtendedAlarmsSet alarm severity status subStatus w).
Proof.
  destruct (decide (alarm ≥ SYSTEMALARMS_EXTENDEDALARMSTATUS_NUMELEM)%nat) as [Hge|Hlt].
  { rewrite ExtendedAlarmsSet_invalid by done. constructor. }
  assert (alarm < SYSTEMALARMS_EXTENDEDALARMSTATUS_NUMELEM)%nat by (unfold ge in Hlt; lia).
  destruct (decide (lock w = LockOther)) as [Hl|Hl].
  { rewrite ExtendedAlarmsSet_lock_failure by done. by constructor. }
  destruct (decide (Alarm_at (store w) alarm = severity)) as [Hs|Hs].
  - rewrite ExtendedAlarmsSet_same by done. by constructor.
  - rewrite ExtendedAlarmsSet_change by done. by constructor.
Qed.

(** What an outcome says of the result, of the store and of the log. *)
Lemma set_outcome_inv d' w r :
  set_outcome d' w r →
  (r.1 = 0 ∨ r.1 = -1) ∧
  (store r.2 = store w ∨ store r.2 = d') ∧
  (r.1 = -1 → store r.2 = store w) ∧
  ∃ l, trace r.2 = trace w ++ l ∧
       (r.1 = -1 → writes l = 0%nat) ∧
       (store r.2 = store w ∨ l = [EvTake true; EvGet; EvSet d'; EvGive]) ∧
       reads_locked 0 l = true.
Proof.
  intros [ | Hl | Hl | Hl ]; simpl.
  - repeat split; auto. exists []. rewrite app_nil_r. repeat split; auto.
  - repeat split; auto. exists [EvTake false]. repeat split; auto.
  - repeat split; auto; try lia. exists [EvTake true; EvGet; EvGive].
    repeat split; auto; lia.
  - repeat split; auto; try lia. exists [EvTake true; EvGet; EvSet d'; EvGive].
    repeat split; auto; lia.
Qed.

(** *** [AlarmsGet] *)

Lemma AlarmsGet_invalid alarm w :
  (alarm ≥ SYSTEMALARMS_ALARM_NUMELEM)%nat → AlarmsGet alarm w = (0, w).
Proof. intros H. unfold AlarmsGet. rewrite nat_ge_true by done. reflexivity. Qed.

Lemma AlarmsGet_valid alarm w :
  (alarm < SYSTEMALARMS_ALARM_NUMELEM)%nat →
  AlarmsGet alarm w = (enum_val (Alarm_at (store w) alarm), log EvGet w).
Proof. intros H. unfold AlarmsGet. rewrite nat_ge_false by done. reflexivity. Qed.

(** *** [hasSeverity] *)

Lemma hasSeverity_run severity w :
  hasSeverity severity w =
    (if hasSeverity_scan (store w) severity 0 SYSTEMALARMS_ALARM_NUMELEM then 1 else 0,
     mkWorld (store w) (lock w)
       (trace w ++ [EvTake (take_result (lock w)); EvGet; EvGive])).
Proof.
  unfold hasSeverity. destruct w as [d l tr]; simpl.
  unfold mbind, Task_bind, xSemaphoreTakeRecursive, SystemAlarmsGet; simpl.
  destruct l as [|k|]; simpl;
    destruct (hasSeverity_scan d severity 0 SYSTEMALARMS_ALARM_NUMELEM); simpl;
    unfold xSemaphoreGiveRecursive, log; simpl; rewrite <- !app_assoc; reflexivity.
Qed.

Lemma hasSeverity_scan_true d severity n count :
  hasSeverity_scan d severity n count = true ↔
  ∃ i, (n ≤ i < n + count)%nat ∧ severity_le severity (Alarm_at d i).
Proof.
  revert n. induction count as [|count IH]; intros n; simpl.
  - split; [done | intros (i & Hi & _); lia].
  - case_bool_decide as Hc.
    + split; [intros _ | done]. exists n. split; [lia | unfold severity_le; lia].
    + rewrite IH. split.
      * intros (i & Hi & Hle). exists i. split; [lia | done].
      * intros (i & Hi & Hle). exists i. split; [| done].
        destruct (decide (i = n)) as [->|]; [| lia].
        unfold severity_le in Hle. lia.
Qed.

(** The same, over the entries of a table of the declared size. *)
Lemma hasSeverity_scan_table d severity :
  wf_data d →
  hasSeverity_scan d severity 0 SYSTEMALARMS_ALARM_NUMELEM = true ↔
  ∃ n s, (n < SYSTEMALARMS_ALARM_NUMELEM)%nat ∧ Alarm d !! n = Some s ∧
         severity_le severity s.
Proof.
  intros (HA & _). rewrite hasSeverity_scan_true. split.
  - intros (i & Hi & Hle).
    destruct (lookup_lt_is_Some_2 (Alarm d) i) as [s Hs]; [lia |].
    exists i, s. rewrite (Alarm_at_lookup _ _ _ Hs) in Hle. split; [lia | done].
  - intros (n & s & Hn & Hs & Hle). exists n.
    rewrite (Alarm_at_lookup _ _ _ Hs). split; [lia | done].
Qed.

(** *** Loops over the alarms *)

Lemma for_each_alarm_invariant (P : World → Prop) (body : nat → Task Z) :
  (∀ n w, P w → P (body n w).2) →
  ∀ first count w, P w → P (for_each_alarm body first count w).2.
Proof.
  intros Hbody first count. revert first.
  induction count as [|count IH]; intros first w Hw; simpl; [done |].
  unfold mbind, Task_bind; simpl. apply IH, Hbody, Hw.
Qed.

(** *** What the assignments change *)

Lemma set_Alarm_lookup_ne d alarm v n :
  n ≠ alarm → Alarm (set_Alarm d alarm v) !! n = Alarm d !! n.
Proof. intros Hn. simpl. apply list_lookup_insert_ne. done. Qed.

Lemma extended_update_lookup_ne d alarm severity status subStatus n :
  n ≠ alarm →
  let d' := extended_update d alarm severity status subStatus in
  Alarm d' !! n = Alarm d !! n ∧
  ExtendedAlarmStatus d' !! n = ExtendedAlarmStatus d !! n ∧
  ExtendedAlarmSubStatus d' !! n = ExtendedAlarmSubStatus d !! n.
Proof.
  intros Hn. simpl. rewrite !list_lookup_insert_ne by done. done.
Qed.

Lemma extended_update_lookup d alarm severity status subStatus :
  (alarm < length (Alarm d))%nat →
  (alarm < length (ExtendedAlarmStatus d))%nat →
  (alarm < length (ExtendedAlarmSubStatus d))%nat →
  let d' := extended_update d alarm severity status subStatus in
  Alarm d' !! alarm = Some severity ∧
  ExtendedAlarmStatus d' !! alarm = Some (uint8 status) ∧
  ExtendedAlarmSubStatus d' !! alarm = Some (uint8 subStatus).
Proof.
  intros H1 H2 H3. simpl. rewrite !list_lookup_insert_eq by done. done.
Qed.

Lemma set_Alarm_wf d alarm v : wf_data d → wf_data (set_Alarm d alarm v).
Proof. unfold wf_data. simpl. rewrite length_insert. done. Qed.

(** ** The severity-gated write of the mutators *)

(** C1.  For an extended alarm ([alarm] below the number of extended
    alarms) whose stored severity is already the requested one,
    [ExtendedAlarmsSet] updates nothing: the record of the store is the one
    of before, so the stored status and sub-status stay what they were
    whatever [status] and [subStatus] are requested, no write-back is made,
    and the call returns 0 (success) once it has the mutex. *)
Theorem ExtendedAlarmsSet_same_severity_no_update
    alarm severity status subStatus w :
  (alarm < SYSTEMALARMS_EXTENDEDALARMSTATUS_NUMELEM)%nat →
  Alarm (store w) !! alarm = Some severity →
  let r := ExtendedAlarmsSet alarm severity status subStatus w in
  store r.2 = store w ∧
  ExtendedAlarmStatus (store r.2) !! alarm = ExtendedAlarmStatus (store w) !! alarm ∧
  ExtendedAlarmSubStatus (store r.2) !! alarm = ExtendedAlarmSubStatus (store w) !! alarm ∧
  writes (emitted (ExtendedAlarmsSet alarm severity status subStatus) w) = 0%nat ∧
  (lock w ≠ LockOther → r.1 = 0).
Proof.
  intros Hlt Hs r. subst r.
  apply Alarm_at_lookup in Hs.
  destruct (decide (lock w = LockOther)) as [Hl|Hl].
  - rewrite (emitted_app _ _ [EvTake false]);
      rewrite ExtendedAlarmsSet_lock_failure by done; simpl; done.
  - rewrite (emitted_app _ _ [EvTake true; EvGet; EvGive]);
      rewrite ExtendedAlarmsSet_same by done; simpl; done.
Qed.

(** C2, as the code has it.  For a valid alarm and once the mutex is
    obtained, [AlarmsSet] returns 0; when the stored severity is the
    requested one it leaves the store and the mutex as they were and writes
    nothing back; otherwise it stores the severity and writes the whole
    record back exactly once.  A second call with the same severity returns
    0 and never writes back, so that the two calls together make one
    write-back when the stored severity differed before the first call, and
    none when it did not. *)
Theorem AlarmsSet_writes_back_on_change alarm severity s0 w :
  (alarm < SYSTEMALARMS_ALARM_NUMELEM)%nat →
  lock w ≠ LockOther →
  Alarm (store w) !! alarm = Some s0 →
  let r1 := AlarmsSet alarm severity w in
  let r2 := AlarmsSet alarm severity r1.2 in
  r1.1 = 0 ∧
  (s0 = severity →
     store r1.2 = store w ∧ lock r1.2 = lock w ∧
     writes (emitted (AlarmsSet alarm severity) w) = 0%nat) ∧
  (s0 ≠ severity →
     store r1.2 = set_Alarm (store w) alarm severity ∧
     emitted (AlarmsSet alarm severity) w =
       [EvTake true; EvGet; EvSet (set_Alarm (store w) alarm severity); EvGive] ∧
     writes (emitted (AlarmsSet alarm severity) w) = 1%nat) ∧
  r2.1 = 0 ∧ store r2.2 = store r1.2 ∧
  writes (emitted (AlarmsSet alarm severity) r1.2) = 0%nat ∧
  writes (emitted (AlarmsSet alarm severity;; AlarmsSet alarm severity) w) =
    (if decide (s0 = severity) then 0 else 1)%nat.
Proof.
  intros Hlt Hl Hs r1 r2.
  assert (Hat : Alarm_at (store w) alarm = s0) by by apply Alarm_at_lookup.
  assert (Hin : (alarm < length (Alarm (store w)))%nat)
    by (apply lookup_lt_is_Some_1; eauto).
  (* the state after the first call holds [severity] at [alarm] *)
  assert (Hat1 : Alarm_at (store r1.2) alarm = severity ∧ lock r1.2 = lock w).
  { subst r1. destruct (decide (s0 = severity)) as [->|Hne].
    - rewrite AlarmsSet_same by done. done.
    - rewrite AlarmsSet_change by congruence. simpl. split; [| done].
      unfold Alarm_at. simpl. by rewrite list_lookup_insert_eq. }
  destruct Hat1 as [Hat1 Hl1].
  assert (Hl1' : lock r1.2 ≠ LockOther) by congruence.
  assert (E2 : AlarmsSet alarm severity r1.2 =
    (0, mkWorld (store r1.2) (lock r1.2) (trace r1.2 ++ [EvTake true; EvGet; EvGive])))
    by by apply AlarmsSet_same.
  assert (Hseq : ∀ l, trace r1.2 = trace w ++ l →
    emitted (AlarmsSet alarm severity;; AlarmsSet alarm severity) w =
      l ++ [EvTake true; EvGet; EvGive]).
  { intros l Hl0. apply emitted_app. unfold mbind, Task_bind. simpl.
    fold r1. rewrite E2. simpl. rewrite Hl0, <- app_assoc. done. }
  subst r2. rewrite E2. simpl.
  rewrite (emitted_app _ r1.2 [EvTake true; EvGet; EvGive]) by by rewrite E2.
  destruct (decide (s0 = severity)) as [->|Hne].
  - rewrite (Hseq [EvTake true; EvGet; EvGive]);
      subst r1; rewrite AlarmsSet_same by done; simpl; [| done].
    rewrite (emitted_app _ w [EvTake true; EvGet; EvGive])
      by by rewrite AlarmsSet_same.
    repeat split; done.
  - rewrite (Hseq [EvTake true; EvGet;
                   EvSet (set_Alarm (store w) alarm severity); EvGive]);
      subst r1; rewrite AlarmsSet_change by congruence; simpl; [| done].
    rewrite (emitted_app _ w [EvTake true; EvGet;
                   EvSet (set_Alarm (store w) alarm severity); EvGive])
      by by rewrite AlarmsSet_change by congruence.
    repeat split; done.
Qed.

(** ** Clearing an alarm *)

(** C3.  [AlarmsClear] is [ExtendedAlarmsSet] with (OK, 0, 0) on an extended
    alarm and [AlarmsSet] with OK on any other identifier: same result,
    same final state.  So on an extended alarm of a record of the declared
    size, once the mutex is obtained: a stored severity other than OK
    becomes OK and the status and sub-status become 0; a stored severity OK
    leaves the record, hence the status and sub-status, as they were. *)
Theorem AlarmsClear_routes alarm w :
  ((alarm < SYSTEMALARMS_EXTENDEDALARMSTATUS_NUMELEM)%nat →
     AlarmsClear alarm w = ExtendedAlarmsSet alarm SYSTEMALARMS_ALARM_OK 0 0 w) ∧
  ((alarm ≥ SYSTEMALARMS_EXTENDEDALARMSTATUS_NUMELEM)%nat →
     AlarmsClear alarm w = AlarmsSet alarm SYSTEMALARMS_ALARM_OK w) ∧
  (∀ s, (alarm < SYSTEMALARMS_EXTENDEDALARMSTATUS_NUMELEM)%nat →
     wf_data (store w) → lock w ≠ LockOther →
     Alarm (store w) !! alarm = Some s → s ≠ SYSTEMALARMS_ALARM_OK →
     let r := AlarmsClear alarm w in
     r.1 = 0 ∧
     Alarm (store r.2) !! alarm = Some SYSTEMALARMS_ALARM_OK ∧
     ExtendedAlarmStatus (store r.2) !! alarm = Some 0 ∧
     ExtendedAlarmSubStatus (store r.2) !! alarm = Some 0) ∧
  ((alarm < SYSTEMALARMS_EXTENDEDALARMSTATUS_NUMELEM)%nat →
     Alarm (store w) !! alarm = Some SYSTEMALARMS_ALARM_OK →
     let r := AlarmsClear alarm w in
     store r.2 = store w ∧
     ExtendedAlarmStatus (store r.2) !! alarm = ExtendedAlarmStatus (store w) !! alarm ∧
     ExtendedAlarmSubStatus (store r.2) !! alarm =
       ExtendedAlarmSubStatus (store w) !! alarm).
Proof.
  assert (Hext : (alarm < SYSTEMALARMS_EXTENDEDALARMSTATUS_NUMELEM)%nat →
    AlarmsClear alarm w = ExtendedAlarmsSet alarm SYSTEMALARMS_ALARM_OK 0 0 w).
  { intros H. unfold AlarmsClear. by rewrite bool_decide_eq_true_2. }
  split; [done |]. split.
  { intros H. unfold AlarmsClear. rewrite bool_decide_eq_false_2; [done |].
    unfold ge in H. lia. }
  split.
  - intros s Hlt (HA & HS & HSS) Hl Hs Hne r. subst r. rewrite Hext by done.
    assert (Hin : (alarm < length (Alarm (store w)))%nat)
      by (apply lookup_lt_is_Some_1; eauto).
    rewrite ExtendedAlarmsSet_change;
      [| done | done | by rewrite (Alarm_at_lookup _ _ _ Hs)].
    cbn [fst snd store]. split; [done |].
    apply (extended_update_lookup (store w) alarm SYSTEMALARMS_ALARM_OK 0 0); lia.
  - intros Hlt Hs r. subst r. rewrite Hext by done.
    assert (Hst : store (ExtendedAlarmsSet alarm SYSTEMALARMS_ALARM_OK 0 0 w).2 = store w).
    { destruct (decide (lock w = LockOther)) as [Hl|Hl].
      - by rewrite ExtendedAlarmsSet_lock_failure.
      - rewrite ExtendedAlarmsSet_same; [done | done | done |].
        by apply Alarm_at_lookup. }
    by rewrite Hst.
Qed.

(** ** The severity queries *)

Lemma severity_le_partial_order : PartialOrder severity_le.
Proof.
  split; [split |].
  - intros a. unfold severity_le. lia.
  - intros a b c. unfold severity_le. lia.
  - intros a b Hab Hba. apply enum_val_inj. unfold severity_le in *. lia.
Qed.

Lemma severity_le_total : Total severity_le.
Proof. intros a b. unfold severity_le. lia. Qed.

Lemma severity_le_chain :
  severity_le SYSTEMALARMS_ALARM_UNINITIALISED SYSTEMALARMS_ALARM_OK ∧
  severity_le SYSTEMALARMS_ALARM_OK SYSTEMALARMS_ALARM_WARNING ∧
  severity_le SYSTEMALARMS_ALARM_WARNING SYSTEMALARMS_ALARM_ERROR ∧
  severity_le SYSTEMALARMS_ALARM_ERROR SYSTEMALARMS_ALARM_CRITICAL.
Proof. unfold severity_le. simpl. lia. Qed.

(** C4.  On a record of the declared size, [hasSeverity t] returns 1
    exactly when one of the alarms 0 .. NUMELEM - 1 has a stored severity
    at or above [t] in the order of the severities, and 0 exactly when none
    has; [AlarmsHasWarnings], [AlarmsHasErrors] and [AlarmsHasCritical] are
    [hasSeverity] at WARNING, ERROR and CRITICAL.  So the query at WARNING
    answers 0 on a table of OK alarms, and 1 right after a successful
    [AlarmsSet] of any alarm to WARNING or above. *)
Theorem hasSeverity_iff_some_alarm_at_least t w :
  wf_data (store w) →
  ((hasSeverity t w).1 = 1 ↔
     ∃ n s, (n < SYSTEMALARMS_ALARM_NUMELEM)%nat ∧
            Alarm (store w) !! n = Some s ∧ severity_le t s) ∧
  ((hasSeverity t w).1 = 0 ↔
     ¬ ∃ n s, (n < SYSTEMALARMS_ALARM_NUMELEM)%nat ∧
              Alarm (store w) !! n = Some s ∧ severity_le t s) ∧
  AlarmsHasWarnings w = hasSeverity SYSTEMALARMS_ALARM_WARNING w ∧
  AlarmsHasErrors w = hasSeverity SYSTEMALARMS_ALARM_ERROR w ∧
  AlarmsHasCritical w = hasSeverity SYSTEMALARMS_ALARM_CRITICAL w ∧
  (all_alarms SYSTEMALARMS_ALARM_OK (store w) → (AlarmsHasWarnings w).1 = 0) ∧
  (∀ alarm severity,
     (alarm < SYSTEMALARMS_ALARM_NUMELEM)%nat →
     severity_le SYSTEMALARMS_ALARM_WARNING severity →
     (AlarmsSet alarm severity w).1 = 0 →
     (AlarmsHasWarnings (AlarmsSet alarm severity w).2).1 = 1).
Proof.
  intros Hwf.
  assert (Hiff : ∀ t' w', wf_data (store w') →
    ((hasSeverity t' w').1 = 1 ↔
       ∃ n s, (n < SYSTEMALARMS_ALARM_NUMELEM)%nat ∧
              Alarm (store w') !! n = Some s ∧ severity_le t' s) ∧
    ((hasSeverity t' w').1 = 0 ↔
       ¬ ∃ n s, (n < SYSTEMALARMS_ALARM_NUMELEM)%nat ∧
                Alarm (store w') !! n = Some s ∧ severity_le t' s)).
  { intros t' w' Hwf'. rewrite hasSeverity_run. cbn [fst].
    rewrite <- (hasSeverity_scan_table _ t' Hwf').
    destruct (hasSeverity_scan (store w') t' 0 SYSTEMALARMS_ALARM_NUMELEM);
      split; split; try done; intros H; by destruct H. }
  destruct (Hiff t w Hwf) as [H1 H0].
  split; [done |]. split; [done |]. do 3 (split; [reflexivity |]). split.
  - intros Hall. unfold AlarmsHasWarnings.
    apply (Hiff SYSTEMALARMS_ALARM_WARNING w Hwf).
    intros (n & s & _ & Hs & Hle).
    rewrite (Forall_lookup_1 _ _ _ _ Hall Hs) in Hle.
    unfold severity_le in Hle. simpl in Hle. lia.
  - intros alarm severity Hlt Hle Hok. unfold AlarmsHasWarnings.
    destruct Hwf as (HA & HS & HSS).
    destruct (lookup_lt_is_Some_2 (Alarm (store w)) alarm) as [s0 Hs0]; [lia |].
    destruct (decide (lock w = LockOther)) as [Hl|Hl].
    { rewrite AlarmsSet_lock_failure in Hok by done. done. }
    destruct (decide (Alarm_at (store w) alarm = severity)) as [Hs|Hs].
    + rewrite AlarmsSet_same by done. cbn [snd].
      apply (Hiff SYSTEMALARMS_ALARM_WARNING); [done |].
      exists alarm, s0. rewrite (Alarm_at_lookup _ _ _ Hs0) in Hs. subst s0. done.
    + rewrite AlarmsSet_change by done. cbn [snd].
      apply (Hiff SYSTEMALARMS_ALARM_WARNING); cbn [store].
      { by apply set_Alarm_wf. }
      exists alarm, severity. split; [done |]. split; [| done].
      simpl. apply list_lookup_insert_eq. lia.
Qed.

(** ** Failures *)

(** A call that does not return 0 leaves the store as it was and writes
    nothing back. *)
Lemma set_outcome_failure d' w r :
  set_outcome d' w r → r.1 ≠ 0 →
  r.1 = -1 ∧ store r.2 = store w ∧
  ∃ l, trace r.2 = trace w ++ l ∧ writes l = 0%nat.
Proof.
  intros [ | Hl | Hl | Hl ] Hr; simpl in *; try done.
  - repeat split. exists []. by rewrite app_nil_r.
  - repeat split. by exists [EvTake false].
Qed.

(** C5.  [AlarmsSet] returns -1 for every identifier at or above
    NUMELEM, [ExtendedAlarmsSet] for every identifier at or above the
    number of extended alarms, and both without any call to the store or to
    the mutex; both return -1 when the mutex is not obtained; and whenever
    one of them fails (a result other than 0), the result is -1, nothing
    was written back and the stored table is the one of before. *)
Theorem set_failure_leaves_table alarm severity status subStatus w :
  ((alarm ≥ SYSTEMALARMS_ALARM_NUMELEM)%nat →
     AlarmsSet alarm severity w = (-1, w)) ∧
  ((alarm ≥ SYSTEMALARMS_EXTENDEDALARMSTATUS_NUMELEM)%nat →
     ExtendedAlarmsSet alarm severity status subStatus w = (-1, w)) ∧
  (lock w = LockOther →
     (AlarmsSet alarm severity w).1 = -1 ∧
     (ExtendedAlarmsSet alarm severity status subStatus w).1 = -1) ∧
  ((AlarmsSet alarm severity w).1 ≠ 0 →
     (AlarmsSet alarm severity w).1 = -1 ∧
     store (AlarmsSet alarm severity w).2 = store w ∧
     writes (emitted (AlarmsSet alarm severity) w) = 0%nat) ∧
  ((ExtendedAlarmsSet alarm severity status subStatus w).1 ≠ 0 →
     (ExtendedAlarmsSet alarm severity status subStatus w).1 = -1 ∧
     store (ExtendedAlarmsSet alarm severity status subStatus w).2 = store w ∧
     writes (emitted (ExtendedAlarmsSet alarm severity status subStatus) w) = 0%nat).
Proof.
  split; [apply AlarmsSet_invalid |].
  split; [apply ExtendedAlarmsSet_invalid |].
  split; [| split].
  - intros Hl. split.
    + destruct (decide (alarm ≥ SYSTEMALARMS_ALARM_NUMELEM)%nat) as [Hge|Hlt].
      * by rewrite AlarmsSet_invalid.
      * rewrite AlarmsSet_lock_failure; [done | unfold ge in Hlt; lia | done].
    + destruct (decide (alarm ≥ SYSTEMALARMS_EXTENDEDALARMSTATUS_NUMELEM)%nat)
        as [Hge|Hlt].
      * by rewrite ExtendedAlarmsSet_invalid.
      * rewrite ExtendedAlarmsSet_lock_failure; [done | unfold ge in Hlt; lia | done].
  - intros Hr.
    destruct (set_outcome_failure _ _ _ (AlarmsSet_outcome alarm severity w) Hr)
      as (H1 & H2 & l & Hl & Hw).
    by rewrite (emitted_app _ _ _ Hl).
  - intros Hr.
    destruct (set_outcome_failure _ _ _
                (ExtendedAlarmsSet_outcome alarm severity status subStatus w) Hr)
      as (H1 & H2 & l & Hl & Hw).
    by rewrite (emitted_app _ _ _ Hl).
Qed.

(** ** Reading an alarm *)

(** C6.  On a record of the declared size, for a valid alarm, [AlarmsGet]
    right after an [AlarmsSet] of that alarm that returned 0 returns the
    severity that was set. *)
Theorem AlarmsGet_after_AlarmsSet alarm severity w :
  wf_data (store w) →
  (alarm < SYSTEMALARMS_ALARM_NUMELEM)%nat →
  (AlarmsSet alarm severity w).1 = 0 →
  (AlarmsGet alarm (AlarmsSet alarm severity w).2).1 = enum_val severity.
Proof.
  intros (HA & _) Hlt Hok. rewrite AlarmsGet_valid by done. cbn [fst]. f_equal.
  destruct (decide (lock w = LockOther)) as [Hl|Hl].
  { rewrite AlarmsSet_lock_failure in Hok by done. done. }
  destruct (decide (Alarm_at (store w) alarm = severity)) as [Hs|Hs].
  - by rewrite AlarmsSet_same.
  - rewrite AlarmsSet_change by done. unfold Alarm_at. simpl.
    rewrite list_lookup_insert_eq by lia. done.
Qed.

(** C9.  For an identifier at or above NUMELEM, [AlarmsGet] returns 0, the
    integer of the enumerator UNINITIALISED, whatever the identifier and
    the table are, and makes no call at all: the record is not read and the
    state is the one of before. *)
Theorem AlarmsGet_invalid_sentinel alarm w :
  (alarm ≥ SYSTEMALARMS_ALARM_NUMELEM)%nat →
  AlarmsGet alarm w = (enum_val SYSTEMALARMS_ALARM_UNINITIALISED, w) ∧
  (AlarmsGet alarm w).1 = 0 ∧
  store (AlarmsGet alarm w).2 = store w ∧
  emitted (AlarmsGet alarm) w = [].
Proof.
  intros Hge. rewrite (emitted_app _ _ []); rewrite AlarmsGet_invalid by done;
    simpl; by rewrite ?app_nil_r.
Qed.

(** C8: the code departs from the claim.  [AlarmsGet] on a valid alarm
    makes one call, the read of the record, and none to the mutex: its read
    is not made under the lock.  It is the only read of the library that is
    not: [AlarmsSet] and [ExtendedAlarmsSet] make theirs between a
    successful take of the mutex and its give, and so does the other
    reader, [hasSeverity], whenever its take succeeds. *)
Theorem AlarmsGet_reads_without_lock alarm w :
  (alarm < SYSTEMALARMS_ALARM_NUMELEM)%nat →
  emitted (AlarmsGet alarm) w = [EvGet] ∧
  reads_locked 0 (emitted (AlarmsGet alarm) w) = false ∧
  lock (AlarmsGet alarm w).2 = lock w ∧
  store (AlarmsGet alarm w).2 = store w ∧
  (AlarmsGet alarm w).1 = enum_val (Alarm_at (store w) alarm) ∧
  (∀ severity, reads_locked 0 (emitted (AlarmsSet alarm severity) w) = true) ∧
  (∀ severity status subStatus,
     reads_locked 0 (emitted (ExtendedAlarmsSet alarm severity status subStatus) w) = true) ∧
  (∀ severity, lock w ≠ LockOther →
     emitted (hasSeverity severity) w = [EvTake true; EvGet; EvGive] ∧
     reads_locked 0 (emitted (hasSeverity severity) w) = true).
Proof.
  intros Hlt.
  rewrite (emitted_app _ _ [EvGet]) by by rewrite AlarmsGet_valid.
  rewrite AlarmsGet_valid by done. do 5 (split; [done |]). split; [| split].
  - intros severity.
    destruct (set_outcome_inv _ _ _ (AlarmsSet_outcome alarm severity w))
      as (_ & _ & _ & l & Hl & _ & _ & Hr).
    by rewrite (emitted_app _ _ _ Hl).
  - intros severity status subStatus.
    destruct (set_outcome_inv _ _ _
                (ExtendedAlarmsSet_outcome alarm severity status subStatus w))
      as (_ & _ & _ & l & Hl & _ & _ & Hr).
    by rewrite (emitted_app _ _ _ Hl).
  - intros severity Hl.
    rewrite (emitted_app _ _ [EvTake (take_result (lock w)); EvGet; EvGive])
      by by rewrite hasSeverity_run.
    by destruct (lock w).
Qed.

(** ** What a call may change *)

Lemma AlarmsSet_frame alarm severity w :
  let w' := (AlarmsSet alarm severity w).2 in
  (∀ n, n ≠ alarm → Alarm (store w') !! n = Alarm (store w) !! n) ∧
  ExtendedAlarmStatus (store w') = ExtendedAlarmStatus (store w) ∧
  ExtendedAlarmSubStatus (store w') = ExtendedAlarmSubStatus (store w).
Proof.
  intros w'. subst w'.
  destruct (set_outcome_inv _ _ _ (AlarmsSet_outcome alarm severity w))
    as (_ & [-> | ->] & _); [done |].
  split; [| done]. intros n Hn. by apply set_Alarm_lookup_ne.
Qed.

Lemma ExtendedAlarmsSet_frame alarm severity status subStatus w n :
  n ≠ alarm →
  let w' := (ExtendedAlarmsSet alarm severity status subStatus w).2 in
  Alarm (store w') !! n = Alarm (store w) !! n ∧
  ExtendedAlarmStatus (store w') !! n = ExtendedAlarmStatus (store w) !! n ∧
  ExtendedAlarmSubStatus (store w') !! n = ExtendedAlarmSubStatus (store w) !! n.
Proof.
  intros Hn w'. subst w'.
  destruct (set_outcome_inv _ _ _
              (ExtendedAlarmsSet_outcome alarm severity status subStatus w))
    as (_ & [-> | ->] & _); [done |].
  by apply extended_update_lookup_ne.
Qed.

Lemma simple_untouched_refl w : simple_untouched w w.
Proof. by intros n Hn. Qed.

Lemma simple_untouched_trans w1 w2 w3 :
  simple_untouched w1 w2 → simple_untouched w2 w3 → simple_untouched w1 w3.
Proof.
  intros H12 H23 n Hn. destruct (H23 n Hn) as [-> ->]. by apply H12.
Qed.

Lemma AlarmsSet_simple_untouched alarm severity w :
  simple_untouched w (AlarmsSet alarm severity w).2.
Proof.
  intros n Hn. destruct (AlarmsSet_frame alarm severity w) as (_ & -> & ->). done.
Qed.

Lemma ExtendedAlarmsSet_simple_untouched alarm severity status subStatus w :
  simple_untouched w (ExtendedAlarmsSet alarm severity status subStatus w).2.
Proof.
  intros n Hn.
  destruct (decide (alarm ≥ SYSTEMALARMS_EXTENDEDALARMSTATUS_NUMELEM)%nat) as [Hge|Hlt].
  - by rewrite ExtendedAlarmsSet_invalid.
  - apply ExtendedAlarmsSet_frame. unfold ge in *. lia.
Qed.

Lemma AlarmsClear_simple_untouched alarm w :
  simple_untouched w (AlarmsClear alarm w).2.
Proof.
  unfold AlarmsClear. case_bool_decide.
  - apply ExtendedAlarmsSet_simple_untouched.
  - apply AlarmsSet_simple_untouched.
Qed.

Lemma for_each_alarm_simple_untouched body :
  (∀ n w, simple_untouched w (body n w).2) →
  ∀ first count w, simple_untouched w (for_each_alarm body first count w).2.
Proof.
  intros Hbody first count w.
  apply (for_each_alarm_invariant (simple_untouched w)).
  - intros n w' Hw'. eapply simple_untouched_trans; [apply Hw' | apply Hbody].
  - apply simple_untouched_refl.
Qed.

Lemma run_call_simple_untouched c w : simple_untouched w (run_call c w).
Proof.
  destruct c; simpl.
  - apply AlarmsSet_simple_untouched.
  - apply ExtendedAlarmsSet_simple_untouched.
  - destruct (decide (alarm ≥ SYSTEMALARMS_ALARM_NUMELEM)%nat) as [Hge|Hlt].
    + rewrite AlarmsGet_invalid by done. apply simple_untouched_refl.
    + rewrite AlarmsGet_valid by (unfold ge in Hlt; lia). by intros n Hn.
  - apply AlarmsSet_simple_untouched.
  - apply for_each_alarm_simple_untouched. intros n w'.
    apply AlarmsSet_simple_untouched.
  - apply AlarmsClear_simple_untouched.
  - apply for_each_alarm_simple_untouched, AlarmsClear_simple_untouched.
  - unfold AlarmsHasWarnings. rewrite hasSeverity_run. by intros n Hn.
  - unfold AlarmsHasErrors. rewrite hasSeverity_run. by intros n Hn.
  - unfold AlarmsHasCritical. rewrite hasSeverity_run. by intros n Hn.
Qed.

(** C7.  A mutation edits one entry of the table.  [AlarmsSet] changes at
    most the severity of its alarm: the severities of the other alarms and
    the two arrays of extended fields are the ones of before.
    [ExtendedAlarmsSet] changes at most the severity, the status and the
    sub-status of its alarm: the three fields of every other entry are the
    ones of before.  And no call of the library, whichever it is, changes
    the extended fields of a simple alarm. *)
Theorem mutation_edits_one_entry alarm severity status subStatus w :
  (let w' := (AlarmsSet alarm severity w).2 in
   (∀ n, n ≠ alarm → Alarm (store w') !! n = Alarm (store w) !! n) ∧
   ExtendedAlarmStatus (store w') = ExtendedAlarmStatus (store w) ∧
   ExtendedAlarmSubStatus (store w') = ExtendedAlarmSubStatus (store w)) ∧
  (let w' := (ExtendedAlarmsSet alarm severity status subStatus w).2 in
   ∀ n, n ≠ alarm →
     Alarm (store w') !! n = Alarm (store w) !! n ∧
     ExtendedAlarmStatus (store w') !! n = ExtendedAlarmStatus (store w) !! n ∧
     ExtendedAlarmSubStatus (store w') !! n = ExtendedAlarmSubStatus (store w) !! n) ∧
  (∀ (c : AlarmsCall) n,
     (n ≥ SYSTEMALARMS_EXTENDEDALARMSTATUS_NUMELEM)%nat →
     ExtendedAlarmStatus (store (run_call c w)) !! n =
       ExtendedAlarmStatus (store w) !! n ∧
     ExtendedAlarmSubStatus (store (run_call c w)) !! n =
       ExtendedAlarmSubStatus (store w) !! n).
Proof.
  split; [apply AlarmsSet_frame |]. split.
  - intros w' n Hn. by apply ExtendedAlarmsSet_frame.
  - intros c n Hn. by apply run_call_simple_untouched.
Qed.

(** C10.  [hasSeverity] has no error result.  Its result is 0 or 1 and is
    the same whatever the state of the mutex is; it reads the record once,
    writes nothing back and leaves the store as it was.  When the mutex is
    held by another task the take fails and the scan is made all the same,
    whereas [AlarmsSet] and [ExtendedAlarmsSet] on an alarm of their range
    return -1 there.  The same holds of [AlarmsHasWarnings],
    [AlarmsHasErrors] and [AlarmsHasCritical]. *)
Theorem hasSeverity_has_no_error_result severity w :
  let r := hasSeverity severity w in
  (r.1 = 0 ∨ r.1 = 1) ∧
  store r.2 = store w ∧
  emitted (hasSeverity severity) w = [EvTake (take_result (lock w)); EvGet; EvGive] ∧
  writes (emitted (hasSeverity severity) w) = 0%nat ∧
  (∀ l, (hasSeverity severity (mkWorld (store w) l (trace w))).1 = r.1) ∧
  (lock w = LockOther →
     emitted (hasSeverity severity) w = [EvTake false; EvGet; EvGive] ∧
     ∀ alarm s status subStatus,
       ((alarm < SYSTEMALARMS_ALARM_NUMELEM)%nat →
          (AlarmsSet alarm s w).1 = -1) ∧
       ((alarm < SYSTEMALARMS_EXTENDEDALARMSTATUS_NUMELEM)%nat →
          (ExtendedAlarmsSet alarm s status subStatus w).1 = -1)) ∧
  ((AlarmsHasWarnings w).1 = 0 ∨ (AlarmsHasWarnings w).1 = 1) ∧
  ((AlarmsHasErrors w).1 = 0 ∨ (AlarmsHasErrors w).1 = 1) ∧
  ((AlarmsHasCritical w).1 = 0 ∨ (AlarmsHasCritical w).1 = 1).
Proof.
  assert (H01 : ∀ t, (hasSeverity t w).1 = 0 ∨ (hasSeverity t w).1 = 1).
  { intros t. rewrite hasSeverity_run. cbn [fst].
    destruct (hasSeverity_scan _ _ _ _); auto. }
  intros r. subst r.
  assert (He : emitted (hasSeverity severity) w =
            [EvTake (take_result (lock w)); EvGet; EvGive]).
  { apply emitted_app. by rewrite hasSeverity_run. }
  split; [apply H01 |]. rewrite He.
  split; [by rewrite hasSeverity_run |]. split; [done |]. split; [done |].
  split; [intros l; by rewrite !hasSeverity_run |].
  split; [| repeat split; apply H01].
  intros Hl. rewrite Hl. split; [done |]. intros alarm s status subStatus. split.
  - intros Hlt. by rewrite AlarmsSet_lock_failure.
  - intros Hlt. by rewrite ExtendedAlarmsSet_lock_failure.
Qed.

(** ** Further properties of the library *)

Lemma writes_app l1 l2 : writes (l1 ++ l2) = (writes l1 + writes l2)%nat.
Proof. unfold writes. by rewrite filter_app, length_app. Qed.

Lemma bracketed_run_app l1 l2 h :
  bracketed_run h (l1 ++ l2) = bracketed_run h l1 ≫= λ h', bracketed_run h' l2.
Proof.
  revert h. induction l1 as [|e l1 IH]; intros h; simpl; [done |].
  destruct e as [[]| | |d]; try apply IH; destruct h; try done; apply IH.
Qed.

Lemma new_events_app w w' l : trace w' = trace w ++ l → new_events w w' = l.
Proof. unfold new_events. intros ->. apply drop_app_length. Qed.

Lemma set_Alarm_same d n s : Alarm_at d n = s → set_Alarm d n s = d.
Proof.
  destruct d as [A S SS]. unfold Alarm_at, set_Alarm. simpl. intros H. f_equal.
  destruct (A !! n) as [x|] eqn:E; simpl in H.
  - subst x. by apply list_insert_id.
  - apply list_insert_ge. by apply lookup_ge_None.
Qed.

Lemma extended_update_wf d alarm severity status subStatus :
  wf_data d → wf_data (extended_update d alarm severity status subStatus).
Proof. unfold wf_data. simpl. rewrite !length_insert. done. Qed.

Lemma call_kept_refl w : call_kept w w.
Proof.
  split; [done |]. split; [done |]. exists []. by rewrite app_nil_r.
Qed.

Lemma call_kept_trans w1 w2 w3 :
  call_kept w1 w2 → call_kept w2 w3 → call_kept w1 w3.
Proof.
  intros (Hl1 & Hwf1 & l1 & Ht1 & Ho1) (Hl2 & Hwf2 & l2 & Ht2 & Ho2).
  split; [congruence |]. split; [auto |].
  exists (l1 ++ l2). split; [by rewrite Ht2, Ht1, app_assoc |].
  intros Ho. destruct (Ho1 Ho) as [Hs1 Hw1].
  destruct Ho2 as [Hs2 Hw2]; [congruence |].
  split; [congruence |]. rewrite writes_app. lia.
Qed.

Lemma set_outcome_kept d' w r :
  (wf_data (store w) → wf_data d') → set_outcome d' w r → call_kept w r.2.
Proof.
  intros Hwf [ | Hl | Hl | Hl ]; simpl.
  - apply call_kept_refl.
  - split; [done |]. split; [done |]. by exists [EvTake false].
  - split; [done |]. split; [done |]. by exists [EvTake true; EvGet; EvGive].
  - split; [done |]. split; [done |].
    by exists [EvTake true; EvGet; EvSet d'; EvGive].
Qed.

Lemma AlarmsSet_kept alarm severity w : call_kept w (AlarmsSet alarm severity w).2.
Proof.
  eapply set_outcome_kept; [| apply AlarmsSet_outcome]. apply set_Alarm_wf.
Qed.

Lemma ExtendedAlarmsSet_kept alarm severity status subStatus w :
  call_kept w (ExtendedAlarmsSet alarm severity status subStatus w).2.
Proof.
  eapply set_outcome_kept; [| apply ExtendedAlarmsSet_outcome].
  apply extended_update_wf.
Qed.

Lemma AlarmsClear_kept alarm w : call_kept w (AlarmsClear alarm w).2.
Proof.
  unfold AlarmsClear. case_bool_decide.
  - apply ExtendedAlarmsSet_kept.
  - apply AlarmsSet_kept.
Qed.

Lemma for_each_alarm_kept body :
  (∀ n w, call_kept w (body n w).2) →
  ∀ first count w, call_kept w (for_each_alarm body first count w).2.
Proof.
  intros Hbody first count w.
  apply (for_each_alarm_invariant (call_kept w)).
  - intros n w' Hw'. eapply call_kept_trans; [apply Hw' | apply Hbody].
  - apply call_kept_refl.
Qed.

Lemma hasSeverity_kept severity w : call_kept w (hasSeverity severity w).2.
Proof.
  rewrite hasSeverity_run. split; [done |]. split; [done |].
  exists [EvTake (take_result (lock w)); EvGet; EvGive]. split; [done |].
  by intros _.
Qed.

Lemma run_call_kept c w : call_kept w (run_call c w).
Proof.
  destruct c; simpl.
  - apply AlarmsSet_kept.
  - apply ExtendedAlarmsSet_kept.
  - destruct (decide (alarm ≥ SYSTEMALARMS_ALARM_NUMELEM)%nat) as [Hge|Hlt].
    + rewrite AlarmsGet_invalid by done. apply call_kept_refl.
    + rewrite AlarmsGet_valid by (unfold ge in Hlt; lia).
      split; [done |]. split; [done |]. by exists [EvGet].
  - apply AlarmsSet_kept.
  - apply for_each_alarm_kept. intros n w'. apply AlarmsSet_kept.
  - apply AlarmsClear_kept.
  - apply for_each_alarm_kept, AlarmsClear_kept.
  - apply hasSeverity_kept.
  - apply hasSeverity_kept.
  - apply hasSeverity_kept.
Qed.

(** X1.  Whatever call of the library is made, and whichever way it
    returns (an error return included), the mutex is afterwards in the
    state it was in before: every take is matched by a give. *)
Theorem run_call_lock_balanced c w : lock (run_call c w) = lock w.
Proof. apply run_call_kept. Qed.

(** X3.  While another task holds the mutex no call of the library, the
    loops over all alarms included, changes the stored record or writes
    anything back. *)
Theorem run_call_locked_out_no_change c w :
  lock w = LockOther →
  store (run_call c w) = store w ∧
  writes (new_events w (run_call c w)) = 0%nat.
Proof.
  intros Ho. destruct (run_call_kept c w) as (_ & _ & l & Ht & Hno).
  rewrite (new_events_app _ _ _ Ht). by apply Hno.
Qed.

Lemma well_bracketed_refl w : well_bracketed w w.
Proof. exists []. by rewrite app_nil_r. Qed.

Lemma well_bracketed_trans w1 w2 w3 :
  well_bracketed w1 w2 → well_bracketed w2 w3 → well_bracketed w1 w3.
Proof.
  intros (l1 & Ht1 & Hr1) (l2 & Ht2 & Hr2). exists (l1 ++ l2).
  split; [by rewrite Ht2, Ht1, app_assoc |].
  rewrite bracketed_run_app, Hr1. exact Hr2.
Qed.

Lemma set_outcome_well_bracketed d' w r : set_outcome d' w r → well_bracketed w r.2.
Proof.
  intros [ | Hl | Hl | Hl ]; simpl.
  - apply well_bracketed_refl.
  - by exists [EvTake false].
  - by exists [EvTake true; EvGet; EvGive].
  - by exists [EvTake true; EvGet; EvSet d'; EvGive].
Qed.

Lemma AlarmsClear_well_bracketed alarm w : well_bracketed w (AlarmsClear alarm w).2.
Proof.
  unfold AlarmsClear. case_bool_decide.
  - eapply set_outcome_well_bracketed, ExtendedAlarmsSet_outcome.
  - eapply set_outcome_well_bracketed, AlarmsSet_outcome.
Qed.

Lemma for_each_alarm_well_bracketed body :
  (∀ n w, well_bracketed w (body n w).2) →
  ∀ first count w, well_bracketed w (for_each_alarm body first count w).2.
Proof.
  intros Hbody first count w.
  apply (for_each_alarm_invariant (well_bracketed w)).
  - intros n w' Hw'. eapply well_bracketed_trans; [apply Hw' | apply Hbody].
  - apply well_bracketed_refl.
Qed.

(** X4.  In the calls that an operation of the library adds to the log,
    every give of the mutex matches an earlier successful take of the same
    operation, every write-back of the record is made while such a take is
    outstanding, and none is outstanding at the end.  This holds of every
    operation but a severity query made while another task holds the mutex:
    [hasSeverity] then reads the record and gives the mutex after the take
    that failed, a give that no take matches. *)
Theorem run_call_well_bracketed c w :
  (is_query c = false ∨ lock w ≠ LockOther →
     bracketed_run 0 (new_events w (run_call c w)) = Some 0%nat) ∧
  (is_query c = true → lock w = LockOther →
     new_events w (run_call c w) = [EvTake false; EvGet; EvGive] ∧
     bracketed_run 0 (new_events w (run_call c w)) = None).
Proof.
  assert (Hwb : ∀ w', well_bracketed w w' →
    bracketed_run 0 (new_events w w') = Some 0%nat).
  { intros w' (l & Ht & Hr). by rewrite (new_events_app _ _ _ Ht). }
  assert (Hq : ∀ t,
    new_events w (hasSeverity t w).2 = [EvTake (take_result (lock w)); EvGet; EvGive]).
  { intros t. apply new_events_app. by rewrite hasSeverity_run. }
  assert (Hfree : lock w ≠ LockOther → take_result (lock w) = true)
    by by destruct (lock w).
  split.
  - intros Hc. destruct c; simpl in *;
      try (destruct Hc as [Hc|Hc]; [discriminate |];
           unfold AlarmsHasWarnings, AlarmsHasErrors, AlarmsHasCritical;
           rewrite Hq, Hfree by done; reflexivity);
      apply Hwb.
    + eapply set_outcome_well_bracketed, AlarmsSet_outcome.
    + eapply set_outcome_well_bracketed, ExtendedAlarmsSet_outcome.
    + destruct (decide (alarm ≥ SYSTEMALARMS_ALARM_NUMELEM)%nat) as [Hge|Hlt].
      * rewrite AlarmsGet_invalid by done. apply well_bracketed_refl.
      * rewrite AlarmsGet_valid by (unfold ge in Hlt; lia). by exists [EvGet].
    + eapply set_outcome_well_bracketed, AlarmsSet_outcome.
    + apply for_each_alarm_well_bracketed. intros n w'.
      eapply set_outcome_well_bracketed, AlarmsSet_outcome.
    + apply AlarmsClear_well_bracketed.
    + apply for_each_alarm_well_bracketed, AlarmsClear_well_bracketed.
  - intros Hc Hl. destruct c; try discriminate; simpl;
      unfold AlarmsHasWarnings, AlarmsHasErrors, AlarmsHasCritical;
      rewrite Hq, Hl; done.
Qed.

(** *** The effect of a mutator that obtains the mutex *)

Lemma AlarmsSet_effect alarm severity w :
  (alarm < SYSTEMALARMS_ALARM_NUMELEM)%nat → lock w ≠ LockOther →
  let r := AlarmsSet alarm severity w in
  r.1 = 0 ∧ store r.2 = set_Alarm (store w) alarm severity ∧ lock r.2 = lock w ∧
  ∃ l, trace r.2 = trace w ++ l ∧
       writes l = (if decide (Alarm_at (store w) alarm = severity) then 0 else 1)%nat.
Proof.
  intros Hlt Hl r. subst r.
  destruct (decide (Alarm_at (store w) alarm = severity)) as [Hs|Hs].
  - rewrite AlarmsSet_same by done. simpl. rewrite set_Alarm_same by done.
    repeat split. by exists [EvTake true; EvGet; EvGive].
  - rewrite AlarmsSet_change by done. simpl. repeat split.
    by exists [EvTake true; EvGet; EvSet (set_Alarm (store w) alarm severity); EvGive].
Qed.

Lemma ExtendedAlarmsSet_effect alarm severity status subStatus w :
  (alarm < SYSTEMALARMS_EXTENDEDALARMSTATUS_NUMELEM)%nat → lock w ≠ LockOther →
  let r := ExtendedAlarmsSet alarm severity status subStatus w in
  r.1 = 0 ∧
  store r.2 = (if decide (Alarm_at (store w) alarm = severity) then store w
               else extended_update (store w) alarm severity status subStatus) ∧
  Alarm (store r.2) = <[alarm := severity]> (Alarm (store w)) ∧
  lock r.2 = lock w ∧
  ∃ l, trace r.2 = trace w ++ l ∧
       writes l = (if decide (Alarm_at (store w) alarm = severity) then 0 else 1)%nat.
Proof.
  intros Hlt Hl r. subst r.
  destruct (decide (Alarm_at (store w) alarm = severity)) as [Hs|Hs].
  - rewrite ExtendedAlarmsSet_same by done. simpl. repeat split.
    + pose proof (set_Alarm_same _ _ _ Hs) as E.
      apply (f_equal Alarm) in E. simpl in E. by rewrite E.
    + by exists [EvTake true; EvGet; EvGive].
  - rewrite ExtendedAlarmsSet_change by done. simpl. repeat split.
    by exists [EvTake true; EvGet;
               EvSet (extended_update (store w) alarm severity status subStatus);
               EvGive].
Qed.

(** X5.  On a record of the declared size and with the mutex obtained,
    [ExtendedAlarmsSet] on an extended alarm whose stored severity differs
    from the requested one returns 0, stores the severity together with the
    status and the sub-status (as the [uint8_t] they are passed as: the
    values themselves when they are below 256), leaves the mutex as it was
    and writes the record back once. *)
Theorem ExtendedAlarmsSet_change_stores_all alarm severity status subStatus s0 w :
  wf_data (store w) →
  (alarm < SYSTEMALARMS_EXTENDEDALARMSTATUS_NUMELEM)%nat →
  lock w ≠ LockOther →
  Alarm (store w) !! alarm = Some s0 → s0 ≠ severity →
  let r := ExtendedAlarmsSet alarm severity status subStatus w in
  r.1 = 0 ∧
  Alarm (store r.2) !! alarm = Some severity ∧
  ExtendedAlarmStatus (store r.2) !! alarm = Some (status mod 256) ∧
  ExtendedAlarmSubStatus (store r.2) !! alarm = Some (subStatus mod 256) ∧
  (0 ≤ status < 256 → ExtendedAlarmStatus (store r.2) !! alarm = Some status) ∧
  (0 ≤ subStatus < 256 → ExtendedAlarmSubStatus (store r.2) !! alarm = Some subStatus) ∧
  lock r.2 = lock w ∧
  emitted (ExtendedAlarmsSet alarm severity status subStatus) w =
    [EvTake true; EvGet;
     EvSet (extended_update (store w) alarm severity status subStatus); EvGive].
Proof.
  intros (HA & HS & HSS) Hlt Hl Hs Hne r. subst r.
  assert (Hin : (alarm < length (Alarm (store w)))%nat)
    by (apply lookup_lt_is_Some_1; eauto).
  assert (Hat : Alarm_at (store w) alarm ≠ severity)
    by by rewrite (Alarm_at_lookup _ _ _ Hs).
  rewrite (emitted_app _ _ [EvTake true; EvGet;
     EvSet (extended_update (store w) alarm severity status subStatus); EvGive])
    by by rewrite ExtendedAlarmsSet_change.
  rewrite ExtendedAlarmsSet_change by done. cbn [fst snd store lock].
  destruct (extended_update_lookup (store w) alarm severity status subStatus)
    as (E1 & E2 & E3); [lia | lia | lia |].
  unfold uint8 in E2, E3.
  split; [done |]. split; [done |]. split; [done |]. split; [done |].
  split; [intros Hr; by rewrite E2, Z.mod_small |].
  split; [intros Hr; by rewrite E3, Z.mod_small |]. done.
Qed.

(** *** The loops over all alarms *)

(** A loop whose body sets the severity of its alarm to [target]. *)
Lemma for_each_alarm_sets (body : nat → Task Z) (target : SystemAlarmsAlarmOptions) :
  (∀ n w, (n < SYSTEMALARMS_ALARM_NUMELEM)%nat → lock w ≠ LockOther →
     Alarm (store (body n w).2) = <[n := target]> (Alarm (store w)) ∧
     lock (body n w).2 = lock w ∧
     ∃ l, trace (body n w).2 = trace w ++ l ∧
          writes l = (if decide (Alarm_at (store w) n = target) then 0 else 1)%nat) →
  ∀ count first w,
    (first + count ≤ SYSTEMALARMS_ALARM_NUMELEM)%nat →
    length (Alarm (store w)) = (first + count)%nat →
    lock w ≠ LockOther →
    let w' := (for_each_alarm body first count w).2 in
    Alarm (store w') = take first (Alarm (store w)) ++ replicate count target ∧
    lock w' = lock w ∧
    ∃ l, trace w' = trace w ++ l ∧
         writes l = length (filter (λ s, s ≠ target) (drop first (Alarm (store w)))).
Proof.
  intros Hbody count. induction count as [|count IH]; intros first w Hle Hlen Hl w'.
  - subst w'. simpl. rewrite app_nil_r, take_ge, drop_ge by lia.
    repeat split. exists []. by rewrite app_nil_r.
  - subst w'. simpl. unfold mbind, Task_bind. simpl.
    destruct (Hbody first w) as (HA & HL & l1 & Ht1 & Hw1); [lia | done |].
    set (w1 := (body first w).2) in *.
    destruct (IH (S first) w1) as (HA' & HL' & l2 & Ht2 & Hw2);
      [lia | rewrite HA, length_insert; lia | congruence |].
    destruct (lookup_lt_is_Some_2 (Alarm (store w)) first) as [a Ha]; [lia |].
    split; [| split; [congruence |]].
    + rewrite HA', HA. rewrite (take_S_r _ _ target)
        by (apply list_lookup_insert_eq; lia).
      rewrite take_insert_ge by lia. rewrite <- app_assoc. done.
    + exists (l1 ++ l2). split; [by rewrite Ht2, Ht1, app_assoc |].
      rewrite writes_app, Hw1, Hw2, HA. rewrite drop_insert_lt by lia.
      rewrite (drop_S _ a first) by done. rewrite (Alarm_at_lookup _ _ _ Ha).
      rewrite filter_cons. destruct (decide (a = target)) as [->|Hne].
      * by rewrite decide_False by (intros H; by apply H).
      * by rewrite decide_True.
Qed.

Lemma for_each_alarm_indexed (I : nat → World → Prop) (body : nat → Task Z) :
  ∀ count first w,
    (∀ n w', (first ≤ n < first + count)%nat → I n w' → I (S n) (body n w').2) →
    I first w →
    I (first + count)%nat (for_each_alarm body first count w).2.
Proof.
  induction count as [|count IH]; intros first w Hbody Hw; simpl.
  - by rewrite Nat.add_0_r.
  - unfold mbind, Task_bind. simpl.
    replace (first + S count)%nat with (S first + count)%nat by lia.
    apply IH.
    + intros n w' Hn. apply Hbody. lia.
    + apply Hbody; [lia | done].
Qed.

Lemma AlarmsClear_sets_ok n w :
  (n < SYSTEMALARMS_ALARM_NUMELEM)%nat → lock w ≠ LockOther →
  Alarm (store (AlarmsClear n w).2) = <[n := SYSTEMALARMS_ALARM_OK]> (Alarm (store w)) ∧
  lock (AlarmsClear n w).2 = lock w ∧
  ∃ l, trace (AlarmsClear n w).2 = trace w ++ l ∧
       writes l = (if decide (Alarm_at (store w) n = SYSTEMALARMS_ALARM_OK)
                   then 0 else 1)%nat.
Proof.
  intros Hlt Hl. unfold AlarmsClear. case_bool_decide as Hm.
  - destruct (ExtendedAlarmsSet_effect n SYSTEMALARMS_ALARM_OK 0 0 w Hm Hl)
      as (_ & _ & HA & HL & Ht). done.
  - destruct (AlarmsSet_effect n SYSTEMALARMS_ALARM_OK w Hlt Hl)
      as (_ & HS & HL & Ht). by rewrite HS.
Qed.

Lemma AlarmsClear_frame alarm w n :
  n ≠ alarm →
  let w' := (AlarmsClear alarm w).2 in
  Alarm (store w') !! n = Alarm (store w) !! n ∧
  ExtendedAlarmStatus (store w') !! n = ExtendedAlarmStatus (store w) !! n ∧
  ExtendedAlarmSubStatus (store w') !! n = ExtendedAlarmSubStatus (store w) !! n.
Proof.
  intros Hn w'. subst w'. unfold AlarmsClear. case_bool_decide.
  - by apply ExtendedAlarmsSet_frame.
  - destruct (AlarmsSet_frame alarm SYSTEMALARMS_ALARM_OK w) as (HA & -> & ->).
    split; [by apply HA | done].
Qed.

(** No alarm of the table [d] is at or above [severity]. *)
Lemma hasSeverity_none_at_least severity d w :
  store w = d →
  (∀ i, ¬ severity_le severity (Alarm_at d i)) →
  (hasSeverity severity w).1 = 0.
Proof.
  intros <- Hnone. rewrite hasSeverity_run. cbn [fst].
  destruct (hasSeverity_scan _ _ _ _) eqn:E; [| done].
  apply hasSeverity_scan_true in E as (i & _ & Hle). by destruct (Hnone i).
Qed.

Lemma Alarm_at_replicate d n s i :
  Alarm d = replicate n s →
  Alarm_at d i = s ∨ Alarm_at d i = SYSTEMALARMS_ALARM_UNINITIALISED.
Proof.
  intros E. unfold Alarm_at. rewrite E.
  destruct (replicate n s !! i) as [x|] eqn:Hx; simpl; [| by right].
  left. by apply lookup_replicate_1 in Hx as [-> _].
Qed.

(** X6.  On a record of the declared size and with the mutex obtained,
    [AlarmsDefaultAll] leaves every alarm at the default severity, so that
    [AlarmsGet] then returns it for every valid alarm; it does not touch the
    extended status and sub-status of any alarm, gives the mutex back, and
    writes the record back once for each alarm that was not at the default
    severity (not once per alarm, and not at all on a table of defaults). *)
Theorem AlarmsDefaultAll_defaults_every_alarm w :
  wf_data (store w) → lock w ≠ LockOther →
  let w' := (AlarmsDefaultAll w).2 in
  Alarm (store w') = replicate SYSTEMALARMS_ALARM_NUMELEM SYSTEMALARMS_ALARM_DEFAULT ∧
  ExtendedAlarmStatus (store w') = ExtendedAlarmStatus (store w) ∧
  ExtendedAlarmSubStatus (store w') = ExtendedAlarmSubStatus (store w) ∧
  lock w' = lock w ∧
  writes (emitted AlarmsDefaultAll w) =
    length (filter (λ s, s ≠ SYSTEMALARMS_ALARM_DEFAULT) (Alarm (store w))) ∧
  (∀ alarm, (alarm < SYSTEMALARMS_ALARM_NUMELEM)%nat →
     (AlarmsGet alarm w').1 = enum_val SYSTEMALARMS_ALARM_DEFAULT).
Proof.
  intros (HA & HS & HSS) Hl w'. subst w'. unfold AlarmsDefaultAll.
  destruct (for_each_alarm_sets AlarmsDefault SYSTEMALARMS_ALARM_DEFAULT)
    with (count := SYSTEMALARMS_ALARM_NUMELEM) (first := 0%nat) (w := w)
    as (HA' & HL' & l & Ht & Hw); [| lia | by rewrite HA | done |].
  { intros n w0 Hn Hl0. unfold AlarmsDefault.
    destruct (AlarmsSet_effect n SYSTEMALARMS_ALARM_DEFAULT w0 Hn Hl0)
      as (_ & Hst & HL & Hl'). by rewrite Hst. }
  rewrite take_0, app_nil_l in HA'. rewrite drop_0 in Hw.
  assert (Hext : ExtendedAlarmStatus
      (store (for_each_alarm AlarmsDefault 0 SYSTEMALARMS_ALARM_NUMELEM w).2) =
        ExtendedAlarmStatus (store w) ∧
    ExtendedAlarmSubStatus
      (store (for_each_alarm AlarmsDefault 0 SYSTEMALARMS_ALARM_NUMELEM w).2) =
        ExtendedAlarmSubStatus (store w)).
  { apply (for_each_alarm_invariant (λ w0,
      ExtendedAlarmStatus (store w0) = ExtendedAlarmStatus (store w) ∧
      ExtendedAlarmSubStatus (store w0) = ExtendedAlarmSubStatus (store w)));
      [| done].
    intros n w0 [E1 E2]. unfold AlarmsDefault.
    destruct (AlarmsSet_frame n SYSTEMALARMS_ALARM_DEFAULT w0) as (_ & -> & ->).
    done. }
  destruct Hext as [E1 E2].
  split; [done |]. split; [done |]. split; [done |]. split; [done |].
  split; [by rewrite (emitted_app _ _ _ Ht) |].
  intros alarm Hlt. rewrite AlarmsGet_valid by done. cbn [fst store log].
  unfold Alarm_at. rewrite HA', lookup_replicate_2 by done. done.
Qed.

(** X7.  On a record of the declared size and with the mutex obtained,
    [AlarmsClearAll] leaves every alarm at OK, gives the mutex back, and
    writes the record back once for each alarm that was not at OK; right
    after it [AlarmsHasWarnings], [AlarmsHasErrors] and [AlarmsHasCritical]
    all return 0. *)
Theorem AlarmsClearAll_clears_every_alarm w :
  wf_data (store w) → lock w ≠ LockOther →
  let w' := (AlarmsClearAll w).2 in
  Alarm (store w') = replicate SYSTEMALARMS_ALARM_NUMELEM SYSTEMALARMS_ALARM_OK ∧
  lock w' = lock w ∧
  writes (emitted AlarmsClearAll w) =
    length (filter (λ s, s ≠ SYSTEMALARMS_ALARM_OK) (Alarm (store w))) ∧
  (AlarmsHasWarnings w').1 = 0 ∧
  (AlarmsHasErrors w').1 = 0 ∧
  (AlarmsHasCritical w').1 = 0.
Proof.
  intros (HA & HS & HSS) Hl w'. subst w'. unfold AlarmsClearAll.
  destruct (for_each_alarm_sets AlarmsClear SYSTEMALARMS_ALARM_OK)
    with (count := SYSTEMALARMS_ALARM_NUMELEM) (first := 0%nat) (w := w)
    as (HA' & HL' & l & Ht & Hw); [| lia | by rewrite HA | done |].
  { intros n w0 Hn Hl0. by apply AlarmsClear_sets_ok. }
  rewrite take_0, app_nil_l in HA'. rewrite drop_0 in Hw.
  split; [done |]. split; [done |].
  split; [by rewrite (emitted_app _ _ _ Ht) |].
  assert (Hnone : ∀ t, severity_le SYSTEMALARMS_ALARM_WARNING t →
    ∀ i, ¬ severity_le t
      (Alarm_at (store (for_each_alarm AlarmsClear 0 SYSTEMALARMS_ALARM_NUMELEM w).2) i)).
  { intros t Ht' i.
    destruct (Alarm_at_replicate _ _ _ i HA') as [-> | ->];
      unfold severity_le in *; simpl in *; lia. }
  split; [| split]; eapply hasSeverity_none_at_least; try reflexivity;
    apply Hnone; unfold severity_le; simpl; lia.
Qed.

(** X8.  On a record of the declared size and with the mutex obtained,
    [AlarmsClearAll] resets the status and the sub-status of an extended
    alarm to 0 exactly when that alarm was not at OK: for an extended alarm
    that was already at OK they stay what they were. *)
Theorem AlarmsClearAll_extended_status w n :
  wf_data (store w) → lock w ≠ LockOther →
  (n < SYSTEMALARMS_EXTENDEDALARMSTATUS_NUMELEM)%nat →
  (n < SYSTEMALARMS_ALARM_NUMELEM)%nat →
  let w' := (AlarmsClearAll w).2 in
  (Alarm (store w) !! n = Some SYSTEMALARMS_ALARM_OK →
     ExtendedAlarmStatus (store w') !! n = ExtendedAlarmStatus (store w) !! n ∧
     ExtendedAlarmSubStatus (store w') !! n = ExtendedAlarmSubStatus (store w) !! n) ∧
  (Alarm (store w) !! n ≠ Some SYSTEMALARMS_ALARM_OK →
     ExtendedAlarmStatus (store w') !! n = Some 0 ∧
     ExtendedAlarmSubStatus (store w') !! n = Some 0).
Proof.
  intros Hwf Hl Hm Hn w'. subst w'. unfold AlarmsClearAll.
  set (final := λ w0 : World,
    (Alarm (store w) !! n = Some SYSTEMALARMS_ALARM_OK →
       ExtendedAlarmStatus (store w0) !! n = ExtendedAlarmStatus (store w) !! n ∧
       ExtendedAlarmSubStatus (store w0) !! n = ExtendedAlarmSubStatus (store w) !! n) ∧
    (Alarm (store w) !! n ≠ Some SYSTEMALARMS_ALARM_OK →
       ExtendedAlarmStatus (store w0) !! n = Some 0 ∧
       ExtendedAlarmSubStatus (store w0) !! n = Some 0)).
  set (I := λ (i : nat) (w0 : World),
    lock w0 = lock w ∧ wf_data (store w0) ∧
    ((i ≤ n)%nat →
       Alarm (store w0) !! n = Alarm (store w) !! n ∧
       ExtendedAlarmStatus (store w0) !! n = ExtendedAlarmStatus (store w) !! n ∧
       ExtendedAlarmSubStatus (store w0) !! n = ExtendedAlarmSubStatus (store w) !! n) ∧
    ((n < i)%nat → final w0)).
  assert (HI : I (0 + SYSTEMALARMS_ALARM_NUMELEM)%nat
    (for_each_alarm AlarmsClear 0 SYSTEMALARMS_ALARM_NUMELEM w).2).
  { apply for_each_alarm_indexed; [| by split; [| split; [| split; [| lia]]]].
    intros i w0 Hi (HL & Hwf0 & Hbefore & Hafter).
    destruct (AlarmsClear_kept i w0) as (HL' & Hwf' & _).
    split; [congruence |]. split; [auto |].
    destruct (decide (i = n)) as [->|Hne].
    - split; [lia |]. intros _.
      destruct Hbefore as (EA & ES & ESS); [lia |].
      assert (Hl0 : lock w0 ≠ LockOther) by congruence.
      destruct (ExtendedAlarmsSet_effect n SYSTEMALARMS_ALARM_OK 0 0 w0 Hm Hl0)
        as (_ & Hst & _).
      unfold final, AlarmsClear. rewrite bool_decide_eq_true_2 by done. rewrite Hst.
      destruct Hwf0 as (LA & LS & LSS).
      destruct (lookup_lt_is_Some_2 (Alarm (store w0)) n) as [a Ha]; [lia |].
      rewrite (Alarm_at_lookup _ _ _ Ha). rewrite <- EA, Ha.
      destruct (decide (a = SYSTEMALARMS_ALARM_OK)) as [->|Ha'].
      + split; [done | intros H; by destruct H].
      + split; [intros H; congruence |]. intros _.
        destruct (extended_update_lookup (store w0) n SYSTEMALARMS_ALARM_OK 0 0)
          as (_ & E2 & E3); [lia | lia | lia |]. done.
    - destruct (AlarmsClear_frame i w0 n) as (FA & FS & FSS); [done |].
      split.
      + intros Hle. destruct Hbefore as (EA & ES & ESS); [lia |].
        by rewrite FA, FS, FSS.
      + intros Hlt. destruct Hafter as [H1 H2]; [lia |].
        unfold final. split; intros H; rewrite FS, FSS; auto. }
  destruct HI as (_ & _ & _ & Hfin). apply Hfin. simpl. lia.
Qed.

(** *** How the calls compose *)

Lemma AlarmsSet_total alarm severity w :
  let r := AlarmsSet alarm severity w in
  let ok := bool_decide ((alarm < SYSTEMALARMS_ALARM_NUMELEM)%nat ∧ lock w ≠ LockOther) in
  r.1 = (if ok then 0 else -1) ∧
  store r.2 = (if ok then set_Alarm (store w) alarm severity else store w) ∧
  lock r.2 = lock w.
Proof.
  intros r ok. subst r ok. case_bool_decide as Hok.
  - destruct Hok as [Hlt Hl].
    destruct (AlarmsSet_effect alarm severity w Hlt Hl) as (H1 & H2 & H3 & _). done.
  - destruct (decide (alarm < SYSTEMALARMS_ALARM_NUMELEM)%nat) as [Hlt|Hge].
    + destruct (decide (lock w = LockOther)) as [Hl|Hl]; [| by destruct Hok].
      by rewrite AlarmsSet_lock_failure.
    + rewrite AlarmsSet_invalid; [done | unfold ge; lia].
Qed.

Lemma AlarmsGet_result alarm w :
  (AlarmsGet alarm w).1 =
    if bool_decide (alarm ≥ SYSTEMALARMS_ALARM_NUMELEM)%nat then 0
    else enum_val (Alarm_at (store w) alarm).
Proof. unfold AlarmsGet. by case_bool_decide. Qed.

Lemma hasSeverity_scan_monotone d t t' n count :
  severity_le t' t →
  hasSeverity_scan d t n count = true → hasSeverity_scan d t' n count = true.
Proof.
  intros Hle. rewrite !hasSeverity_scan_true. intros (i & Hi & H).
  exists i. split; [done |]. unfold severity_le in *. lia.
Qed.

(** X9.  [hasSeverity] is monotone in its threshold: an answer 1 at a
    severity is an answer 1 at every lower severity.  So on any table
    [AlarmsHasCritical] = 1 gives [AlarmsHasErrors] = 1, which gives
    [AlarmsHasWarnings] = 1, and no warning means no error and no critical
    alarm. *)
Theorem hasSeverity_monotone w :
  (∀ t t', severity_le t' t → (hasSeverity t w).1 = 1 → (hasSeverity t' w).1 = 1) ∧
  ((AlarmsHasCritical w).1 = 1 → (AlarmsHasErrors w).1 = 1) ∧
  ((AlarmsHasErrors w).1 = 1 → (AlarmsHasWarnings w).1 = 1) ∧
  ((AlarmsHasWarnings w).1 = 0 →
     (AlarmsHasErrors w).1 = 0 ∧ (AlarmsHasCritical w).1 = 0).
Proof.
  assert (Hmono : ∀ t t', severity_le t' t →
    (hasSeverity t w).1 = 1 → (hasSeverity t' w).1 = 1).
  { intros t t' Hle. rewrite !hasSeverity_run. cbn [fst].
    destruct (hasSeverity_scan (store w) t 0 SYSTEMALARMS_ALARM_NUMELEM) eqn:E;
      [| done].
    by rewrite (hasSeverity_scan_monotone _ _ _ _ _ Hle E). }
  assert (H01 : ∀ t, (hasSeverity t w).1 = 0 ∨ (hasSeverity t w).1 = 1).
  { intros t. rewrite hasSeverity_run. cbn [fst].
    destruct (hasSeverity_scan _ _ _ _); auto. }
  assert (HCE : severity_le SYSTEMALARMS_ALARM_ERROR SYSTEMALARMS_ALARM_CRITICAL)
    by (unfold severity_le; simpl; lia).
  assert (HEW : severity_le SYSTEMALARMS_ALARM_WARNING SYSTEMALARMS_ALARM_ERROR)
    by (unfold severity_le; simpl; lia).
  unfold AlarmsHasCritical, AlarmsHasErrors, AlarmsHasWarnings.
  split; [exact Hmono |]. split; [by apply Hmono |]. split; [by apply Hmono |].
  intros H0.
  assert (HE : (hasSeverity SYSTEMALARMS_ALARM_ERROR w).1 = 0).
  { destruct (H01 SYSTEMALARMS_ALARM_ERROR) as [|H1]; [done |].
    apply (Hmono _ _ HEW) in H1. congruence. }
  split; [done |].
  destruct (H01 SYSTEMALARMS_ALARM_CRITICAL) as [|H1]; [done |].
  apply (Hmono _ _ HCE) in H1. congruence.
Qed.

(** X10.  Two [AlarmsSet] calls on different alarms commute: whatever the
    identifiers, the severities and the state of the mutex are, the stored
    record after the two calls is the same in either order. *)
Theorem AlarmsSet_commute a b s t w :
  a ≠ b →
  store ((AlarmsSet a s;; AlarmsSet b t) w).2 =
    store ((AlarmsSet b t;; AlarmsSet a s) w).2.
Proof.
  intros Hne. unfold mbind, Task_bind. simpl.
  destruct (AlarmsSet_total a s w) as (_ & Sa & La).
  destruct (AlarmsSet_total b t w) as (_ & Sb & Lb).
  destruct (AlarmsSet_total b t (AlarmsSet a s w).2) as (_ & Sab & _).
  destruct (AlarmsSet_total a s (AlarmsSet b t w).2) as (_ & Sba & _).
  rewrite Sab, Sba, La, Lb, Sa, Sb.
  repeat case_bool_decide; try done;
    unfold set_Alarm; simpl; f_equal; by apply list_insert_insert_ne.
Qed.

(** X11.  The last [AlarmsSet] of an alarm wins: setting an alarm to one
    severity and then to another gives the result and the stored record of
    the second call alone. *)
Theorem AlarmsSet_last_wins a s t w :
  ((AlarmsSet a s;; AlarmsSet a t) w).1 = (AlarmsSet a t w).1 ∧
  store ((AlarmsSet a s;; AlarmsSet a t) w).2 = store (AlarmsSet a t w).2.
Proof.
  unfold mbind, Task_bind. simpl.
  destruct (AlarmsSet_total a s w) as (_ & Sa & La).
  destruct (AlarmsSet_total a t w) as (Rt & St & _).
  destruct (AlarmsSet_total a t (AlarmsSet a s w).2) as (Rat & Sat & _).
  rewrite Rat, Sat, Rt, St, La, Sa.
  destruct (bool_decide ((a < SYSTEMALARMS_ALARM_NUMELEM)%nat ∧ lock w ≠ LockOther));
    [| done].
  split; [done |]. unfold set_Alarm. simpl. f_equal. apply list_insert_insert_eq.
Qed.

(** X12.  What [AlarmsGet] returns for an alarm is not changed by an
    [AlarmsSet], an [ExtendedAlarmsSet] or an [AlarmsClear] of another
    alarm. *)
Theorem AlarmsGet_other_alarm a b s status subStatus w :
  a ≠ b →
  (AlarmsGet b (AlarmsSet a s w).2).1 = (AlarmsGet b w).1 ∧
  (AlarmsGet b (ExtendedAlarmsSet a s status subStatus w).2).1 = (AlarmsGet b w).1 ∧
  (AlarmsGet b (AlarmsClear a w).2).1 = (AlarmsGet b w).1.
Proof.
  intros Hne. rewrite !AlarmsGet_result. unfold Alarm_at.
  destruct (AlarmsSet_frame a s w) as (F1 & _).
  destruct (ExtendedAlarmsSet_frame a s status subStatus w b) as (F2 & _); [done |].
  destruct (AlarmsClear_frame a w b) as (F3 & _); [done |].
  rewrite F1, F2, F3 by done. done.
Qed.

(** X13.  On a record of the declared size, [AlarmsGet] of a valid alarm
    right after an [ExtendedAlarmsSet] of that alarm that returned 0
    returns the severity that was requested, and right after an
    [AlarmsClear] of that alarm that returned 0 it returns OK. *)
Theorem AlarmsGet_after_ExtendedAlarmsSet alarm severity status subStatus w :
  wf_data (store w) →
  (alarm < SYSTEMALARMS_ALARM_NUMELEM)%nat →
  ((ExtendedAlarmsSet alarm severity status subStatus w).1 = 0 →
     (AlarmsGet alarm (ExtendedAlarmsSet alarm severity status subStatus w).2).1 =
       enum_val severity) ∧
  ((AlarmsClear alarm w).1 = 0 →
     (AlarmsGet alarm (AlarmsClear alarm w).2).1 = enum_val SYSTEMALARMS_ALARM_OK).
Proof.
  intros (HA & _) Hlt.
  assert (Hext : ∀ sev st sst, (ExtendedAlarmsSet alarm sev st sst w).1 = 0 →
    (AlarmsGet alarm (ExtendedAlarmsSet alarm sev st sst w).2).1 = enum_val sev).
  { intros sev st sst Hok. rewrite AlarmsGet_valid by done. cbn [fst]. f_equal.
    destruct (decide (alarm ≥ SYSTEMALARMS_EXTENDEDALARMSTATUS_NUMELEM)%nat)
      as [Hge|Hm].
    { rewrite ExtendedAlarmsSet_invalid in Hok by done. done. }
    assert (Hm' : (alarm < SYSTEMALARMS_EXTENDEDALARMSTATUS_NUMELEM)%nat)
      by (unfold ge in Hm; lia).
    destruct (decide (lock w = LockOther)) as [Hl|Hl].
    { rewrite ExtendedAlarmsSet_lock_failure in Hok by done. done. }
    destruct (ExtendedAlarmsSet_effect alarm sev st sst w Hm' Hl)
      as (_ & _ & HA' & _).
    unfold Alarm_at. rewrite HA', list_lookup_insert_eq by lia. done. }
  split; [apply Hext |].
  unfold AlarmsClear. case_bool_decide; [apply Hext |].
  intros Hok. rewrite AlarmsGet_valid by done. cbn [fst]. f_equal.
  destruct (AlarmsSet_total alarm SYSTEMALARMS_ALARM_OK w) as (Hr & Hst & _).
  rewrite Hr in Hok. rewrite Hst. case_bool_decide; [| done].
  unfold Alarm_at. simpl. rewrite list_lookup_insert_eq by lia. done.
Qed.

(** A loop whose body finds nothing to change. *)
Lemma for_each_alarm_fixed (body : nat → Task Z) (d : SystemAlarmsData) (k : LockState) :
  (∀ n w, (n < SYSTEMALARMS_ALARM_NUMELEM)%nat → store w = d → lock w = k →
     store (body n w).2 = d ∧ lock (body n w).2 = k ∧
     ∃ l, trace (body n w).2 = trace w ++ l ∧ writes l = 0%nat) →
  ∀ count first w,
    (first + count ≤ SYSTEMALARMS_ALARM_NUMELEM)%nat → store w = d → lock w = k →
    store (for_each_alarm body first count w).2 = d ∧
    ∃ l, trace (for_each_alarm body first count w).2 = trace w ++ l ∧
         writes l = 0%nat.
Proof.
  intros Hbody count. induction count as [|count IH]; intros first w Hle Hs Hk.
  - simpl. split; [done |]. exists []. by rewrite app_nil_r.
  - simpl. unfold mbind, Task_bind. simpl.
    destruct (Hbody first w) as (Hs1 & Hk1 & l1 & Ht1 & Hw1); [lia | done | done |].
    destruct (IH (S first) (body first w).2) as (Hs2 & l2 & Ht2 & Hw2);
      [lia | done | done |].
    split; [done |]. exists (l1 ++ l2).
    split; [by rewrite Ht2, Ht1, app_assoc |]. rewrite writes_app. lia.
Qed.

Lemma Alarm_at_replicate_lt d n s i :
  Alarm d = replicate n s → (i < n)%nat → Alarm_at d i = s.
Proof.
  intros E Hi. unfold Alarm_at. by rewrite E, lookup_replicate_2.
Qed.

(** X14.  [AlarmsClearAll] and [AlarmsDefaultAll] are idempotent: on a
    record of the declared size and with the mutex obtained, a second run
    right after the first leaves the stored record as the first left it and
    writes nothing back. *)
Theorem AlarmsClearAll_AlarmsDefaultAll_idempotent w :
  wf_data (store w) → lock w ≠ LockOther →
  (let w1 := (AlarmsClearAll w).2 in
   store (AlarmsClearAll w1).2 = store w1 ∧
   writes (emitted AlarmsClearAll w1) = 0%nat) ∧
  (let w1 := (AlarmsDefaultAll w).2 in
   store (AlarmsDefaultAll w1).2 = store w1 ∧
   writes (emitted AlarmsDefaultAll w1) = 0%nat).
Proof.
  intros (HA & HS & HSS) Hl. split.
  - intros w1.
    assert (H1 : Alarm (store w1) =
                 replicate SYSTEMALARMS_ALARM_NUMELEM SYSTEMALARMS_ALARM_OK ∧
                 lock w1 = lock w).
    { subst w1. unfold AlarmsClearAll.
      destruct (for_each_alarm_sets AlarmsClear SYSTEMALARMS_ALARM_OK)
        with (count := SYSTEMALARMS_ALARM_NUMELEM) (first := 0%nat) (w := w)
        as (HA' & HL' & _); [| lia | by rewrite HA | done |].
      { intros n w0 Hn Hl0. by apply AlarmsClear_sets_ok. }
      by rewrite take_0, app_nil_l in HA'. }
    destruct H1 as [HA1 HL1].
    destruct (for_each_alarm_fixed AlarmsClear (store w1) (lock w1))
      with (count := SYSTEMALARMS_ALARM_NUMELEM) (first := 0%nat) (w := w1)
      as (Hst & l & Ht & Hw); [| lia | done | done |].
    { intros n w0 Hn Hs0 Hk0.
      assert (Hat : Alarm_at (store w0) n = SYSTEMALARMS_ALARM_OK)
        by (rewrite Hs0; by apply (Alarm_at_replicate_lt _ _ _ _ HA1)).
      assert (Hl0 : lock w0 ≠ LockOther) by congruence.
      unfold AlarmsClear. case_bool_decide as Hm.
      - destruct (ExtendedAlarmsSet_effect n SYSTEMALARMS_ALARM_OK 0 0 w0 Hm Hl0)
          as (_ & Hst & _ & HL & l & Ht & Hw).
        rewrite decide_True in Hst by done. rewrite decide_True in Hw by done.
        split; [congruence |]. split; [congruence |]. by exists l.
      - destruct (AlarmsSet_effect n SYSTEMALARMS_ALARM_OK w0 Hn Hl0)
          as (_ & Hst & HL & l & Ht & Hw).
        rewrite decide_True in Hw by done. rewrite set_Alarm_same in Hst by done.
        split; [congruence |]. split; [congruence |]. by exists l. }
    unfold AlarmsClearAll. split; [exact Hst |]. by rewrite (emitted_app _ _ _ Ht).
  - intros w1.
    assert (H1 : Alarm (store w1) =
                 replicate SYSTEMALARMS_ALARM_NUMELEM SYSTEMALARMS_ALARM_DEFAULT ∧
                 lock w1 = lock w).
    { subst w1. unfold AlarmsDefaultAll.
      destruct (for_each_alarm_sets AlarmsDefault SYSTEMALARMS_ALARM_DEFAULT)
        with (count := SYSTEMALARMS_ALARM_NUMELEM) (first := 0%nat) (w := w)
        as (HA' & HL' & _); [| lia | by rewrite HA | done |].
      { intros n w0 Hn Hl0. unfold AlarmsDefault.
        destruct (AlarmsSet_effect n SYSTEMALARMS_ALARM_DEFAULT w0 Hn Hl0)
          as (_ & Hst & HL & Hl'). by rewrite Hst. }
      by rewrite take_0, app_nil_l in HA'. }
    destruct H1 as [HA1 HL1].
    destruct (for_each_alarm_fixed AlarmsDefault (store w1) (lock w1))
      with (count := SYSTEMALARMS_ALARM_NUMELEM) (first := 0%nat) (w := w1)
      as (Hst & l & Ht & Hw); [| lia | done | done |].
    { intros n w0 Hn Hs0 Hk0.
      assert (Hat : Alarm_at (store w0) n = SYSTEMALARMS_ALARM_DEFAULT)
        by (rewrite Hs0; by apply (Alarm_at_replicate_lt _ _ _ _ HA1)).
      assert (Hl0 : lock w0 ≠ LockOther) by congruence.
      unfold AlarmsDefault.
      destruct (AlarmsSet_effect n SYSTEMALARMS_ALARM_DEFAULT w0 Hn Hl0)
        as (_ & Hst & HL & l & Ht & Hw).
      rewrite decide_True in Hw by done. rewrite set_Alarm_same in Hst by done.
      split; [congruence |]. split; [congruence |]. by exists l. }
    unfold AlarmsDefaultAll. split; [exact Hst |]. by rewrite (emitted_app _ _ _ Ht).
Qed.

End alarms.





(** ** The properties on the sample states

    Three alarms, two of them extended. *)

Lemma ExtendedAlarmsSet_same_severity_no_update_witness :
  let w1 := (ExtendedAlarmsSet 2 0 SYSTEMALARMS_ALARM_ERROR 1 2 sample_world).2 in
  let r := ExtendedAlarmsSet 2 0 SYSTEMALARMS_ALARM_ERROR 9 9 w1 in
  (0 < 2)%nat ∧
  Alarm (store w1) !! 0%nat = Some SYSTEMALARMS_ALARM_ERROR ∧
  ExtendedAlarmStatus (store w1) !! 0%nat = Some 1 ∧
  ExtendedAlarmSubStatus (store w1) !! 0%nat = Some 2 ∧
  lock w1 ≠ LockOther ∧
  store r.2 = store w1 ∧
  ExtendedAlarmStatus (store r.2) !! 0%nat = Some 1 ∧
  ExtendedAlarmSubStatus (store r.2) !! 0%nat = Some 2 ∧
  writes (emitted (ExtendedAlarmsSet 2 0 SYSTEMALARMS_ALARM_ERROR 9 9) w1) = 0%nat ∧
  r.1 = 0.
Proof.
  intros w1 r.
  assert (Hlt : (0 < 2)%nat) by lia.
  assert (Hs : Alarm (store w1) !! 0%nat = Some SYSTEMALARMS_ALARM_ERROR)
    by reflexivity.
  assert (Hl : lock w1 ≠ LockOther) by (vm_compute; discriminate).
  destruct (ExtendedAlarmsSet_same_severity_no_update
              2 0 SYSTEMALARMS_ALARM_ERROR 9 9 w1 Hlt Hs)
    as (H1 & H2 & H3 & H4 & H5).
  split; [exact Hlt |]. split; [exact Hs |].
  split; [reflexivity |]. split; [reflexivity |]. split; [exact Hl |].
  split; [exact H1 |].
  split; [etrans; [exact H2 | reflexivity] |].
  split; [etrans; [exact H3 | reflexivity] |].
  split; [exact H4 | exact (H5 Hl)].
Defined.

Lemma AlarmsSet_twice_same_severity_no_write_back :
  let twice := (AlarmsSet 3 0 SYSTEMALARMS_ALARM_OK;;
                AlarmsSet 3 0 SYSTEMALARMS_ALARM_OK) in
  (AlarmsSet 3 0 SYSTEMALARMS_ALARM_OK sample_world).1 = 0 ∧
  (twice sample_world).1 = 0 ∧
  writes (emitted twice sample_world) = 0%nat ∧
  writes (emitted twice sample_world) ≠ 1%nat.
Proof. vm_compute. repeat split; discriminate. Qed.

Lemma AlarmsSet_writes_back_on_change_witness :
  let r1 := AlarmsSet 3 1 SYSTEMALARMS_ALARM_WARNING sample_world in
  (1 < 3)%nat ∧ lock sample_world ≠ LockOther ∧
  Alarm (store sample_world) !! 1%nat = Some SYSTEMALARMS_ALARM_OK ∧
  r1.1 = 0 ∧
  writes (emitted (AlarmsSet 3 1 SYSTEMALARMS_ALARM_WARNING) sample_world) = 1%nat ∧
  (AlarmsSet 3 1 SYSTEMALARMS_ALARM_WARNING r1.2).1 = 0 ∧
  writes (emitted (AlarmsSet 3 1 SYSTEMALARMS_ALARM_WARNING) r1.2) = 0%nat ∧
  writes (emitted (AlarmsSet 3 1 SYSTEMALARMS_ALARM_WARNING;;
                   AlarmsSet 3 1 SYSTEMALARMS_ALARM_WARNING) sample_world) = 1%nat.
Proof.
  intros r1.
  assert (Hlt : (1 < 3)%nat) by lia.
  assert (Hl : lock sample_world ≠ LockOther) by discriminate.
  assert (Hs : Alarm (store sample_world) !! 1%nat = Some SYSTEMALARMS_ALARM_OK)
    by reflexivity.
  destruct (AlarmsSet_writes_back_on_change
              3 1 SYSTEMALARMS_ALARM_WARNING SYSTEMALARMS_ALARM_OK sample_world
              Hlt Hl Hs)
    as (H1 & _ & H3 & H4 & _ & H6 & H7).
  destruct H3 as (_ & _ & H3); [discriminate |].
  split; [exact Hlt |]. split; [exact Hl |]. split; [exact Hs |].
  split; [exact H1 |]. split; [exact H3 |]. split; [exact H4 |].
  split; [exact H6 | exact H7].
Defined.

Lemma AlarmsClear_routes_witness :
  AlarmsClear 3 2 0 sample_error_world =
    ExtendedAlarmsSet 2 0 SYSTEMALARMS_ALARM_OK 0 0 sample_error_world ∧
  AlarmsClear 3 2 2 sample_world = AlarmsSet 3 2 SYSTEMALARMS_ALARM_OK sample_world ∧
  (let r := AlarmsClear 3 2 0 sample_error_world in
   r.1 = 0 ∧
   Alarm (store r.2) !! 0%nat = Some SYSTEMALARMS_ALARM_OK ∧
   ExtendedAlarmStatus (store r.2) !! 0%nat = Some 0 ∧
   ExtendedAlarmSubStatus (store r.2) !! 0%nat = Some 0) ∧
  store (AlarmsClear 3 2 0 sample_world).2 = store sample_world.
Proof.
  destruct (AlarmsClear_routes 3 2 0 sample_error_world) as (H1 & _ & H3 & _).
  destruct (AlarmsClear_routes 3 2 2 sample_world) as (_ & H2 & _).
  destruct (AlarmsClear_routes 3 2 0 sample_world) as (_ & _ & _ & H4).
  split; [apply H1; lia |]. split; [apply H2; unfold ge; lia |]. split.
  - apply (H3 SYSTEMALARMS_ALARM_ERROR);
      [lia | vm_compute; done | discriminate | reflexivity | discriminate].
  - apply H4; [lia | reflexivity].
Defined.

Lemma hasSeverity_iff_some_alarm_at_least_witness :
  wf_data 3 2 (store sample_world) ∧
  all_alarms SYSTEMALARMS_ALARM_OK (store sample_world) ∧
  (AlarmsHasWarnings 3 sample_world).1 = 0 ∧
  (AlarmsSet 3 1 SYSTEMALARMS_ALARM_ERROR sample_world).1 = 0 ∧
  (AlarmsHasWarnings 3 (AlarmsSet 3 1 SYSTEMALARMS_ALARM_ERROR sample_world).2).1 = 1.
Proof.
  assert (Hwf : wf_data 3 2 (store sample_world)) by (vm_compute; done).
  assert (Hall : all_alarms SYSTEMALARMS_ALARM_OK (store sample_world))
    by (unfold all_alarms; simpl; repeat constructor).
  destruct (hasSeverity_iff_some_alarm_at_least
              3 2 SYSTEMALARMS_ALARM_WARNING sample_world Hwf)
    as (_ & _ & _ & _ & _ & Hok & Hset).
  split; [done |]. split; [done |]. split; [by apply Hok |].
  split; [reflexivity |].
  apply Hset; [lia | vm_compute; discriminate | reflexivity].
Defined.

Lemma set_failure_leaves_table_witness :
  (* an identifier past the end of both ranges *)
  AlarmsSet 3 3 SYSTEMALARMS_ALARM_ERROR sample_world = (-1, sample_world) ∧
  ExtendedAlarmsSet 2 3 SYSTEMALARMS_ALARM_ERROR 9 9 sample_world = (-1, sample_world) ∧
  (* a valid identifier while another task holds the mutex *)
  lock sample_busy_world = LockOther ∧
  (AlarmsSet 3 0 SYSTEMALARMS_ALARM_ERROR sample_busy_world).1 = -1 ∧
  (ExtendedAlarmsSet 2 0 SYSTEMALARMS_ALARM_ERROR 9 9 sample_busy_world).1 = -1 ∧
  store (AlarmsSet 3 0 SYSTEMALARMS_ALARM_ERROR sample_busy_world).2 =
    store sample_busy_world ∧
  writes (emitted (AlarmsSet 3 0 SYSTEMALARMS_ALARM_ERROR) sample_busy_world) = 0%nat ∧
  store (ExtendedAlarmsSet 2 0 SYSTEMALARMS_ALARM_ERROR 9 9 sample_busy_world).2 =
    store sample_busy_world ∧
  writes (emitted (ExtendedAlarmsSet 2 0 SYSTEMALARMS_ALARM_ERROR 9 9)
            sample_busy_world) = 0%nat.
Proof.
  destruct (set_failure_leaves_table 3 2 3 SYSTEMALARMS_ALARM_ERROR 9 9 sample_world)
    as (H1 & H2 & _).
  destruct (set_failure_leaves_table 3 2 0 SYSTEMALARMS_ALARM_ERROR 9 9
              sample_busy_world)
    as (_ & _ & H3 & H4 & H5).
  split; [apply H1; unfold ge; lia |]. split; [apply H2; unfold ge; lia |].
  split; [reflexivity |].
  destruct (H3 eq_refl) as [H3a H3b].
  split; [exact H3a |]. split; [exact H3b |].
  destruct H4 as (_ & H4a & H4b); [vm_compute; discriminate |].
  destruct H5 as (_ & H5a & H5b); [vm_compute; discriminate |].
  split; [exact H4a |]. split; [exact H4b |]. split; [exact H5a | exact H5b].
Defined.

Lemma AlarmsGet_after_AlarmsSet_witness :
  wf_data 3 2 (store sample_world) ∧ (1 < 3)%nat ∧
  (AlarmsSet 3 1 SYSTEMALARMS_ALARM_WARNING sample_world).1 = 0 ∧
  (AlarmsGet 3 1 (AlarmsSet 3 1 SYSTEMALARMS_ALARM_WARNING sample_world).2).1 =
    enum_val SYSTEMALARMS_ALARM_WARNING.
Proof.
  assert (Hwf : wf_data 3 2 (store sample_world)) by (vm_compute; done).
  assert (Hlt : (1 < 3)%nat) by lia.
  assert (Hok : (AlarmsSet 3 1 SYSTEMALARMS_ALARM_WARNING sample_world).1 = 0)
    by reflexivity.
  split; [exact Hwf |]. split; [exact Hlt |]. split; [exact Hok |].
  exact (AlarmsGet_after_AlarmsSet 3 2 1 SYSTEMALARMS_ALARM_WARNING sample_world
           Hwf Hlt Hok).
Defined.

Lemma AlarmsGet_invalid_sentinel_witness :
  (3 ≥ 3)%nat ∧
  AlarmsGet 3 3 sample_error_world =
    (enum_val SYSTEMALARMS_ALARM_UNINITIALISED, sample_error_world) ∧
  (AlarmsGet 3 3 sample_error_world).1 = 0 ∧
  store (AlarmsGet 3 3 sample_error_world).2 = store sample_error_world ∧
  emitted (AlarmsGet 3 3) sample_error_world = [].
Proof.
  assert (Hge : (3 ≥ 3)%nat) by (unfold ge; lia).
  split; [exact Hge |].
  exact (AlarmsGet_invalid_sentinel 3 3 sample_error_world Hge).
Defined.

Lemma AlarmsGet_valid_takes_no_lock :
  emitted (AlarmsGet 3 0) sample_error_world = [EvGet] ∧
  (EvTake true ∉ emitted (AlarmsGet 3 0) sample_error_world) ∧
  (EvGive ∉ emitted (AlarmsGet 3 0) sample_error_world) ∧
  reads_locked 0 (emitted (AlarmsGet 3 0) sample_error_world) ≠ true.
Proof.
  vm_compute. split; [reflexivity |].
  split; [| split]; [ | | discriminate];
    intros H; apply list_elem_of_singleton in H; discriminate.
Qed.

Lemma AlarmsGet_reads_without_lock_witness :
  (0 < 3)%nat ∧
  emitted (AlarmsGet 3 0) sample_error_world = [EvGet] ∧
  reads_locked 0 (emitted (AlarmsGet 3 0) sample_error_world) = false ∧
  lock (AlarmsGet 3 0 sample_error_world).2 = lock sample_error_world ∧
  (AlarmsGet 3 0 sample_error_world).1 = enum_val SYSTEMALARMS_ALARM_ERROR ∧
  reads_locked 0
    (emitted (AlarmsSet 3 0 SYSTEMALARMS_ALARM_OK) sample_error_world) = true ∧
  lock sample_error_world ≠ LockOther ∧
  emitted (hasSeverity 3 SYSTEMALARMS_ALARM_WARNING) sample_error_world =
    [EvTake true; EvGet; EvGive] ∧
  reads_locked 0
    (emitted (hasSeverity 3 SYSTEMALARMS_ALARM_WARNING) sample_error_world) = true.
Proof.
  assert (Hlt : (0 < 3)%nat) by lia.
  assert (Hl : lock sample_error_world ≠ LockOther) by discriminate.
  destruct (AlarmsGet_reads_without_lock 3 2 0 sample_error_world Hlt)
    as (H1 & H2 & H3 & _ & H5 & H6 & _ & H8).
  destruct (H8 SYSTEMALARMS_ALARM_WARNING Hl) as [H8a H8b].
  split; [exact Hlt |]. split; [exact H1 |]. split; [exact H2 |].
  split; [exact H3 |]. split; [exact H5 |].
  split; [exact (H6 SYSTEMALARMS_ALARM_OK) |]. split; [exact Hl |].
  split; [exact H8a | exact H8b].
Defined.

Lemma mutation_edits_one_entry_witness :
  (let w' := (AlarmsSet 3 0 SYSTEMALARMS_ALARM_OK sample_error_world).2 in
   Alarm (store w') !! 1%nat = Alarm (store sample_error_world) !! 1%nat ∧
   ExtendedAlarmStatus (store w') = [1; 0] ∧
   ExtendedAlarmSubStatus (store w') = [2; 0]) ∧
  (let w' := (ExtendedAlarmsSet 2 0 SYSTEMALARMS_ALARM_OK 7 8 sample_error_world).2 in
   Alarm (store w') !! 1%nat = Alarm (store sample_error_world) !! 1%nat ∧
   ExtendedAlarmStatus (store w') !! 1%nat = Some 0 ∧
   ExtendedAlarmSubStatus (store w') !! 1%nat = Some 0) ∧
  ExtendedAlarmStatus
    (store (run_call 3 2 SYSTEMALARMS_ALARM_UNINITIALISED CallClearAll
              sample_error_world)) !! 2%nat =
    ExtendedAlarmStatus (store sample_error_world) !! 2%nat.
Proof.
  destruct (mutation_edits_one_entry 3 2 SYSTEMALARMS_ALARM_UNINITIALISED
              0 SYSTEMALARMS_ALARM_OK 7 8 sample_error_world)
    as (H1 & H2 & H3).
  destruct H1 as (H1a & H1b & H1c).
  split; [| split].
  - split; [apply H1a; lia |]. split; [exact H1b | exact H1c].
  - exact (H2 1%nat ltac:(lia)).
  - apply (H3 CallClearAll 2%nat). unfold ge. lia.
Defined.

Lemma hasSeverity_has_no_error_result_witness :
  lock sample_busy_world = LockOther ∧
  (hasSeverity 3 SYSTEMALARMS_ALARM_OK sample_busy_world).1 = 1 ∧
  (hasSeverity 3 SYSTEMALARMS_ALARM_WARNING sample_busy_world).1 = 0 ∧
  emitted (hasSeverity 3 SYSTEMALARMS_ALARM_WARNING) sample_busy_world =
    [EvTake false; EvGet; EvGive] ∧
  store (hasSeverity 3 SYSTEMALARMS_ALARM_WARNING sample_busy_world).2 =
    store sample_busy_world ∧
  (AlarmsSet 3 0 SYSTEMALARMS_ALARM_WARNING sample_busy_world).1 = -1 ∧
  (ExtendedAlarmsSet 2 0 SYSTEMALARMS_ALARM_WARNING 1 2 sample_busy_world).1 = -1.
Proof.
  destruct (hasSeverity_has_no_error_result 3 2 SYSTEMALARMS_ALARM_WARNING
              sample_busy_world)
    as (_ & H2 & _ & _ & _ & H6 & _).
  destruct (H6 eq_refl) as [H6a H6b].
  destruct (H6b 0%nat SYSTEMALARMS_ALARM_WARNING 1 2) as [H7 H8].
  split; [reflexivity |]. split; [reflexivity |]. split; [reflexivity |].
  split; [exact H6a |]. split; [exact H2 |].
  split; [apply H7; lia | apply H8; lia].
Defined.

(** *** The further properties on the sample states *)

Lemma run_call_locked_out_no_change_witness :
  lock sample_busy_world = LockOther ∧
  store (run_call 3 2 SYSTEMALARMS_ALARM_UNINITIALISED CallDefaultAll
           sample_busy_world) = store sample_busy_world ∧
  writes (new_events sample_busy_world
            (run_call 3 2 SYSTEMALARMS_ALARM_UNINITIALISED CallDefaultAll
               sample_busy_world)) = 0%nat.
Proof.
  split; [reflexivity |].
  exact (run_call_locked_out_no_change 3 2 SYSTEMALARMS_ALARM_UNINITIALISED
           CallDefaultAll sample_busy_world eq_refl).
Defined.

Lemma run_call_well_bracketed_witness :
  (* a loop of mutators, the mutex free *)
  bracketed_run 0
    (new_events sample_error_world
       (run_call 3 2 SYSTEMALARMS_ALARM_UNINITIALISED CallClearAll
          sample_error_world)) = Some 0%nat ∧
  (* a mutator, the mutex held by another task *)
  bracketed_run 0
    (new_events sample_busy_world
       (run_call 3 2 SYSTEMALARMS_ALARM_UNINITIALISED
          (CallSet 0 SYSTEMALARMS_ALARM_ERROR) sample_busy_world)) = Some 0%nat ∧
  (* a query, the mutex free *)
  lock sample_error_world ≠ LockOther ∧
  bracketed_run 0
    (new_events sample_error_world
       (run_call 3 2 SYSTEMALARMS_ALARM_UNINITIALISED CallHasErrors
          sample_error_world)) = Some 0%nat ∧
  (* a query, the mutex held by another task *)
  lock sample_busy_world = LockOther ∧
  new_events sample_busy_world
    (run_call 3 2 SYSTEMALARMS_ALARM_UNINITIALISED CallHasErrors sample_busy_world) =
    [EvTake false; EvGet; EvGive] ∧
  bracketed_run 0
    (new_events sample_busy_world
       (run_call 3 2 SYSTEMALARMS_ALARM_UNINITIALISED CallHasErrors
          sample_busy_world)) = None.
Proof.
  assert (Hl : lock sample_error_world ≠ LockOther) by discriminate.
  destruct (run_call_well_bracketed 3 2 SYSTEMALARMS_ALARM_UNINITIALISED
              CallClearAll sample_error_world) as [H1 _].
  destruct (run_call_well_bracketed 3 2 SYSTEMALARMS_ALARM_UNINITIALISED
              (CallSet 0 SYSTEMALARMS_ALARM_ERROR) sample_busy_world) as [H2 _].
  destruct (run_call_well_bracketed 3 2 SYSTEMALARMS_ALARM_UNINITIALISED
              CallHasErrors sample_error_world) as [H3 _].
  destruct (run_call_well_bracketed 3 2 SYSTEMALARMS_ALARM_UNINITIALISED
              CallHasErrors sample_busy_world) as [_ H4].
  destruct (H4 eq_refl eq_refl) as [H4a H4b].
  split; [exact (H1 (or_introl eq_refl)) |].
  split; [exact (H2 (or_introl eq_refl)) |]. split; [exact Hl |].
  split; [exact (H3 (or_intror Hl)) |]. split; [reflexivity |].
  split; [exact H4a | exact H4b].
Defined.

Lemma ExtendedAlarmsSet_change_stores_all_witness :
  let r := ExtendedAlarmsSet 2 1 SYSTEMALARMS_ALARM_CRITICAL 7 300 sample_world in
  wf_data 3 2 (store sample_world) ∧ (1 < 2)%nat ∧ lock sample_world ≠ LockOther ∧
  Alarm (store sample_world) !! 1%nat = Some SYSTEMALARMS_ALARM_OK ∧
  SYSTEMALARMS_ALARM_OK ≠ SYSTEMALARMS_ALARM_CRITICAL ∧
  r.1 = 0 ∧
  Alarm (store r.2) !! 1%nat = Some SYSTEMALARMS_ALARM_CRITICAL ∧
  ExtendedAlarmStatus (store r.2) !! 1%nat = Some 7 ∧
  ExtendedAlarmSubStatus (store r.2) !! 1%nat = Some (300 mod 256) ∧
  lock r.2 = lock sample_world.
Proof.
  intros r.
  assert (Hwf : wf_data 3 2 (store sample_world)) by (vm_compute; done).
  assert (Hlt : (1 < 2)%nat) by lia.
  assert (Hl : lock sample_world ≠ LockOther) by discriminate.
  assert (Hs : Alarm (store sample_world) !! 1%nat = Some SYSTEMALARMS_ALARM_OK)
    by reflexivity.
  assert (Hne : SYSTEMALARMS_ALARM_OK ≠ SYSTEMALARMS_ALARM_CRITICAL) by discriminate.
  destruct (ExtendedAlarmsSet_change_stores_all 3 2 1 SYSTEMALARMS_ALARM_CRITICAL
              7 300 SYSTEMALARMS_ALARM_OK sample_world Hwf Hlt Hl Hs Hne)
    as (H1 & H2 & _ & H4 & H5 & _ & H7 & _).
  split; [exact Hwf |]. split; [exact Hlt |]. split; [exact Hl |].
  split; [exact Hs |]. split; [exact Hne |]. split; [exact H1 |].
  split; [exact H2 |]. split; [apply H5; lia |]. split; [exact H4 | exact H7].
Defined.

Lemma AlarmsDefaultAll_defaults_every_alarm_witness :
  let w' := (AlarmsDefaultAll 3 SYSTEMALARMS_ALARM_UNINITIALISED sample_error_world).2 in
  wf_data 3 2 (store sample_error_world) ∧ lock sample_error_world ≠ LockOther ∧
  Alarm (store w') = replicate 3 SYSTEMALARMS_ALARM_UNINITIALISED ∧
  ExtendedAlarmStatus (store w') = [1; 0] ∧
  ExtendedAlarmSubStatus (store w') = [2; 0] ∧
  writes (emitted (AlarmsDefaultAll 3 SYSTEMALARMS_ALARM_UNINITIALISED)
            sample_error_world) = 3%nat ∧
  (AlarmsGet 3 0 w').1 = enum_val SYSTEMALARMS_ALARM_UNINITIALISED.
Proof.
  intros w'.
  assert (Hwf : wf_data 3 2 (store sample_error_world)) by (vm_compute; done).
  assert (Hl : lock sample_error_world ≠ LockOther) by discriminate.
  destruct (AlarmsDefaultAll_defaults_every_alarm 3 2 SYSTEMALARMS_ALARM_UNINITIALISED
              sample_error_world Hwf Hl)
    as (H1 & H2 & H3 & _ & H5 & H6).
  split; [exact Hwf |]. split; [exact Hl |]. split; [exact H1 |].
  split; [exact H2 |]. split; [exact H3 |]. split; [exact H5 |].
  apply H6. lia.
Defined.

Lemma AlarmsClearAll_clears_every_alarm_witness :
  let w' := (AlarmsClearAll 3 2 sample_error_world).2 in
  wf_data 3 2 (store sample_error_world) ∧ lock sample_error_world ≠ LockOther ∧
  Alarm (store w') = replicate 3 SYSTEMALARMS_ALARM_OK ∧
  writes (emitted (AlarmsClearAll 3 2) sample_error_world) = 1%nat ∧
  (AlarmsHasWarnings 3 w').1 = 0 ∧
  (AlarmsHasErrors 3 w').1 = 0 ∧
  (AlarmsHasCritical 3 w').1 = 0.
Proof.
  intros w'.
  assert (Hwf : wf_data 3 2 (store sample_error_world)) by (vm_compute; done).
  assert (Hl : lock sample_error_world ≠ LockOther) by discriminate.
  destruct (AlarmsClearAll_clears_every_alarm 3 2 sample_error_world Hwf Hl)
    as (H1 & _ & H3 & H4 & H5 & H6).
  split; [exact Hwf |]. split; [exact Hl |]. split; [exact H1 |].
  split; [exact H3 |]. split; [exact H4 |]. split; [exact H5 | exact H6].
Defined.

Lemma AlarmsClearAll_extended_status_witness :
  let w' := (AlarmsClearAll 3 2 sample_error_world).2 in
  wf_data 3 2 (store sample_error_world) ∧ lock sample_error_world ≠ LockOther ∧
  (* alarm 0 was at (ERROR, 1, 2): its status and sub-status are reset *)
  Alarm (store sample_error_world) !! 0%nat ≠ Some SYSTEMALARMS_ALARM_OK ∧
  ExtendedAlarmStatus (store w') !! 0%nat = Some 0 ∧
  ExtendedAlarmSubStatus (store w') !! 0%nat = Some 0 ∧
  (* alarm 1 was at OK: its status and sub-status are kept *)
  Alarm (store sample_error_world) !! 1%nat = Some SYSTEMALARMS_ALARM_OK ∧
  ExtendedAlarmStatus (store w') !! 1%nat =
    ExtendedAlarmStatus (store sample_error_world) !! 1%nat.
Proof.
  intros w'.
  assert (Hwf : wf_data 3 2 (store sample_error_world)) by (vm_compute; done).
  assert (Hl : lock sample_error_world ≠ LockOther) by discriminate.
  assert (H0 : Alarm (store sample_error_world) !! 0%nat ≠ Some SYSTEMALARMS_ALARM_OK)
    by discriminate.
  destruct (AlarmsClearAll_extended_status 3 2 sample_error_world 0 Hwf Hl
              ltac:(lia) ltac:(lia)) as (_ & Hreset).
  destruct (AlarmsClearAll_extended_status 3 2 sample_error_world 1 Hwf Hl
              ltac:(lia) ltac:(lia)) as (Hkept & _).
  destruct (Hreset H0) as [R1 R2]. destruct (Hkept eq_refl) as [K1 _].
  split; [exact Hwf |]. split; [exact Hl |]. split; [exact H0 |].
  split; [exact R1 |]. split; [exact R2 |]. split; [reflexivity | exact K1].
Defined.

Lemma hasSeverity_monotone_witness :
  let w := (AlarmsSet 3 2 SYSTEMALARMS_ALARM_CRITICAL sample_world).2 in
  (AlarmsHasCritical 3 w).1 = 1 ∧
  (AlarmsHasErrors 3 w).1 = 1 ∧
  (AlarmsHasWarnings 3 w).1 = 1 ∧
  (AlarmsHasWarnings 3 sample_world).1 = 0 ∧
  (AlarmsHasErrors 3 sample_world).1 = 0 ∧
  (AlarmsHasCritical 3 sample_world).1 = 0.
Proof.
  intros w.
  destruct (hasSeverity_monotone 3 w) as (_ & HCE & HEW & _).
  destruct (hasSeverity_monotone 3 sample_world) as (_ & _ & _ & Hnone).
  assert (HC : (AlarmsHasCritical 3 w).1 = 1) by reflexivity.
  assert (HW : (AlarmsHasWarnings 3 sample_world).1 = 0) by reflexivity.
  destruct (Hnone HW) as [N1 N2].
  split; [exact HC |]. split; [exact (HCE HC) |]. split; [exact (HEW (HCE HC)) |].
  split; [exact HW |]. split; [exact N1 | exact N2].
Defined.

Lemma AlarmsSet_commute_witness :
  0%nat ≠ 2%nat ∧
  store ((AlarmsSet 3 0 SYSTEMALARMS_ALARM_WARNING;;
          AlarmsSet 3 2 SYSTEMALARMS_ALARM_CRITICAL) sample_error_world).2 =
  store ((AlarmsSet 3 2 SYSTEMALARMS_ALARM_CRITICAL;;
          AlarmsSet 3 0 SYSTEMALARMS_ALARM_WARNING) sample_error_world).2.
Proof.
  assert (Hne : 0%nat ≠ 2%nat) by lia.
  split; [exact Hne |].
  exact (AlarmsSet_commute 3 0 2 SYSTEMALARMS_ALARM_WARNING
           SYSTEMALARMS_ALARM_CRITICAL sample_error_world Hne).
Defined.

Lemma AlarmsGet_other_alarm_witness :
  0%nat ≠ 1%nat ∧
  (AlarmsGet 3 1 (AlarmsSet 3 0 SYSTEMALARMS_ALARM_WARNING sample_error_world).2).1 =
    (AlarmsGet 3 1 sample_error_world).1 ∧
  (AlarmsGet 3 1
     (ExtendedAlarmsSet 2 0 SYSTEMALARMS_ALARM_WARNING 5 6 sample_error_world).2).1 =
    (AlarmsGet 3 1 sample_error_world).1 ∧
  (AlarmsGet 3 1 (AlarmsClear 3 2 0 sample_error_world).2).1 =
    (AlarmsGet 3 1 sample_error_world).1.
Proof.
  assert (Hne : 0%nat ≠ 1%nat) by lia.
  split; [exact Hne |].
  exact (AlarmsGet_other_alarm 3 2 0 1 SYSTEMALARMS_ALARM_WARNING 5 6
           sample_error_world Hne).
Defined.

Lemma AlarmsGet_after_ExtendedAlarmsSet_witness :
  wf_data 3 2 (store sample_error_world) ∧ (0 < 3)%nat ∧
  (ExtendedAlarmsSet 2 0 SYSTEMALARMS_ALARM_WARNING 5 6 sample_error_world).1 = 0 ∧
  (AlarmsGet 3 0
     (ExtendedAlarmsSet 2 0 SYSTEMALARMS_ALARM_WARNING 5 6 sample_error_world).2).1 =
    enum_val SYSTEMALARMS_ALARM_WARNING ∧
  (AlarmsClear 3 2 0 sample_error_world).1 = 0 ∧
  (AlarmsGet 3 0 (AlarmsClear 3 2 0 sample_error_world).2).1 =
    enum_val SYSTEMALARMS_ALARM_OK.
Proof.
  assert (Hwf : wf_data 3 2 (store sample_error_world)) by (vm_compute; done).
  assert (Hlt : (0 < 3)%nat) by lia.
  destruct (AlarmsGet_after_ExtendedAlarmsSet 3 2 0 SYSTEMALARMS_ALARM_WARNING 5 6
              sample_error_world Hwf Hlt) as [Hext Hclear].
  split; [exact Hwf |]. split; [exact Hlt |]. split; [reflexivity |].
  split; [exact (Hext eq_refl) |]. split; [reflexivity | exact (Hclear eq_refl)].
Defined.

Lemma AlarmsClearAll_AlarmsDefaultAll_idempotent_witness :
  let w1 := (AlarmsClearAll 3 2 sample_error_world).2 in
  let w2 := (AlarmsDefaultAll 3 SYSTEMALARMS_ALARM_UNINITIALISED sample_error_world).2 in
  wf_data 3 2 (store sample_error_world) ∧ lock sample_error_world ≠ LockOther ∧
  store (AlarmsClearAll 3 2 w1).2 = store w1 ∧
  writes (emitted (AlarmsClearAll 3 2) w1) = 0%nat ∧
  store (AlarmsDefaultAll 3 SYSTEMALARMS_ALARM_UNINITIALISED w2).2 = store w2 ∧
  writes (emitted (AlarmsDefaultAll 3 SYSTEMALARMS_ALARM_UNINITIALISED) w2) = 0%nat.
Proof.
  intros w1 w2.
  assert (Hwf : wf_data 3 2 (store sample_error_world)) by (vm_compute; done).
  assert (Hl : lock sample_error_world ≠ LockOther) by discriminate.
  destruct (AlarmsClearAll_AlarmsDefaultAll_idempotent 3 2
              SYSTEMALARMS_ALARM_UNINITIALISED sample_error_world Hwf Hl)
    as ((C1 & C2) & (D1 & D2)).
  split; [exact Hwf |]. split; [exact Hl |]. split; [exact C1 |].
  split; [exact C2 |]. split; [exact D1 | exact D2].
Defined.
